(** * SimpleDB: a JSON file backed key-value store

    A shallow embedding of [SimpleDB.js].  The repository holds two builds
    of the class: one that guards every file access with [proper-lockfile]
    and one that funnels writes through a promise queue.  Both are embedded
    by the same definitions; they branch on [build] where the sources
    differ.

    Conventions of the embedding:
    - a JavaScript value is a tree ([jsval]); an object, array or function
      stands for one reference, so equal trees denote the same reference;
      [JSelfRef name] is the cyclic object built by
      [const o = {}; o[name] = o], which no finite tree can hold;
    - a Number is an integer [JNum n] or [JNaN]; page numbers, page sizes
      and the write delay are integers;
    - the text of the backing file is kept up to what [JSON.parse] makes of
      it: the empty text, a text it rejects, or a text it decodes to a JSON
      document ([text]);
    - [Map] objects live in a heap and are passed by address, because the
      cache, the operations and the delayed-write callback share them;
    - every public operation runs to completion before the next one
      starts; timer callbacks and watcher callbacks run in between;
    - [cacheSize] (stored by the lockfile build, read nowhere) and
      [timeoutId] with its [clearTimeout] after the timer has fired (queue
      build) have no effect and are left out. *)

From stdpp Require Import base list strings pretty.
From Stdlib Require Import ZArith Lia.

#[local] Set Warnings "-register-all".
Open Scope Z_scope.

(** ** Values *)

Inductive jsval :=
| JUndefined
| JNull
| JBool (b : bool)
| JNum (n : Z)
| JNaN
| JBigInt (n : Z)
| JStr (s : string)
| JFunction (src : string)
| JArr (elems : list jsval)
| JObj (props : list (string * jsval))
| JSelfRef (name : string).

(** The errors the code can meet: its own [new Error(message)], the two
    built-in errors raised by [JSON] and [Object.entries], and the failure
    codes of the file system and of the lock. *)
Inductive error :=
| Error (message : string)
| TypeError
| SyntaxError
| ENOENT
| EACCES
| ELOCKED.

Inductive outcome (A : Type) :=
| Return (a : A)
| Throw (e : error).
Arguments Return {A} a.
Arguments Throw {A} e.

(** [typeof key !== "string"] *)
Definition is_string (v : jsval) : bool :=
  match v with JStr _ => true | _ => false end.

(** ToBoolean, as used by [||] and [!]. *)
Definition truthy (v : jsval) : bool :=
  match v with
  | JUndefined | JNull | JNaN => false
  | JBool b => b
  | JNum n => negb (n =? 0)
  | JBigInt n => negb (n =? 0)
  | JStr s => negb (String.eqb s "")
  | JFunction _ | JArr _ | JObj _ | JSelfRef _ => true
  end.

(** [a || b] *)
Definition js_or (a b : jsval) : jsval := if truthy a then a else b.

(** SameValueZero, the key equality of [Map]. *)
Fixpoint SameValueZero (a b : jsval) {struct a} : bool :=
  match a, b with
  | JUndefined, JUndefined => true
  | JNull, JNull => true
  | JBool x, JBool y => Bool.eqb x y
  | JNum x, JNum y => x =? y
  | JNaN, JNaN => true
  | JBigInt x, JBigInt y => x =? y
  | JStr x, JStr y => String.eqb x y
  | JFunction x, JFunction y => String.eqb x y
  | JArr xs, JArr ys =>
      (fix all2 (xs ys : list jsval) {struct xs} : bool :=
         match xs, ys with
         | [], [] => true
         | x :: xs', y :: ys' => SameValueZero x y && all2 xs' ys'
         | _, _ => false
         end) xs ys
  | JObj ps, JObj qs =>
      (fix all2 (ps qs : list (string * jsval)) {struct ps} : bool :=
         match ps, qs with
         | [], [] => true
         | (k, x) :: ps', (l, y) :: qs' =>
             String.eqb k l && SameValueZero x y && all2 ps' qs'
         | _, _ => false
         end) ps qs
  | JSelfRef x, JSelfRef y => String.eqb x y
  | _, _ => false
  end.

(** ToString, needed where a [Map] key that is not a string becomes a
    property name. *)
Fixpoint ToString (v : jsval) : string :=
  match v with
  | JUndefined => "undefined"
  | JNull => "null"
  | JBool true => "true"
  | JBool false => "false"
  | JNum n => pretty n
  | JNaN => "NaN"
  | JBigInt n => pretty n
  | JStr s => s
  | JFunction src => src
  | JArr elems =>
      (fix join (l : list jsval) : string :=
         match l with
         | [] => ""
         | x :: l' =>
             let sx := match x with
                       | JUndefined | JNull => ""
                       | _ => ToString x
                       end in
             match l' with
             | [] => sx
             | _ :: _ => sx +:+ "," +:+ join l'
             end
         end) elems
  | JObj _ | JSelfRef _ => "[object Object]"
  end.

(** ** Plain objects

    Own properties in enumeration order: array indices ascending, then the
    other names in order of creation. *)

Definition digit_of (c : Ascii.ascii) : option N :=
  let n := Ascii.N_of_ascii c in
  if ((48 <=? n) && (n <=? 57))%N then Some (n - 48)%N else None.

Fixpoint parse_digits (acc : N) (s : string) : option N :=
  match s with
  | EmptyString => Some acc
  | String c s' =>
      match digit_of c with
      | Some d => parse_digits (10 * acc + d)%N s'
      | None => None
      end
  end.

(** A property name is an array index when it is the canonical decimal
    form of an integer below 2^32 - 1. *)
Definition array_index (k : string) : option N :=
  match k with
  | EmptyString => None
  | String _ _ =>
      match parse_digits 0 k with
      | Some n =>
          if bool_decide (pretty n = k) && (n <? 4294967295)%N
          then Some n else None
      | None => None
      end
  end.

Abbreviation props := (list (string * jsval)).

Fixpoint props_has (k : string) (ps : props) : bool :=
  match ps with
  | [] => false
  | (k', _) :: ps' => String.eqb k k' || props_has k ps'
  end.

Fixpoint props_replace (k : string) (v : jsval) (ps : props) : props :=
  match ps with
  | [] => []
  | (k', v') :: ps' =>
      if String.eqb k k' then (k', v) :: ps'
      else (k', v') :: props_replace k v ps'
  end.

Fixpoint props_insert_index (n : N) (k : string) (v : jsval) (ps : props)
  : props :=
  match ps with
  | [] => [(k, v)]
  | (k', v') :: ps' =>
      match array_index k' with
      | Some n' =>
          if (n <? n')%N then (k, v) :: ps
          else (k', v') :: props_insert_index n k v ps'
      | None => (k, v) :: ps
      end
  end.

(** CreateDataProperty on an ordinary object. *)
Definition define_property (k : string) (v : jsval) (ps : props) : props :=
  if props_has k ps then props_replace k v ps
  else match array_index k with
       | Some n => props_insert_index n k v ps
       | None => ps ++ [(k, v)]
       end.

(** [Object.fromEntries(entries)]: each key goes through ToPropertyKey. *)
Definition Object_fromEntries (entries : list (jsval * jsval)) : jsval :=
  JObj (fold_left (fun ps kv => define_property (ToString kv.1) kv.2 ps)
                  entries []).

Fixpoint indexed (i : N) (l : list jsval) : list (jsval * jsval) :=
  match l with
  | [] => []
  | x :: l' => (JStr (pretty i), x) :: indexed (i + 1)%N l'
  end.

Fixpoint chars (s : string) : list jsval :=
  match s with
  | EmptyString => []
  | String c s' => JStr (String c EmptyString) :: chars s'
  end.

(** [Object.entries(v)]: ToObject fails on [undefined] and [null]; a string
    lists its characters, an array its elements, a number or boolean
    nothing. *)
Definition Object_entries (v : jsval) : outcome (list (jsval * jsval)) :=
  match v with
  | JUndefined | JNull => Throw TypeError
  | JObj ps => Return (map (fun kv => (JStr kv.1, kv.2)) ps)
  | JArr elems => Return (indexed 0 elems)
  | JStr s => Return (indexed 0 (chars s))
  | JSelfRef name => Return [(JStr name, JSelfRef name)]
  | JBool _ | JNum _ | JNaN | JBigInt _ | JFunction _ => Return []
  end.

(** ** Map objects *)

Abbreviation jsmap := (list (jsval * jsval)).

Fixpoint map_has (k : jsval) (m : jsmap) : bool :=
  match m with
  | [] => false
  | (k', _) :: m' => SameValueZero k' k || map_has k m'
  end.

Fixpoint map_get (k : jsval) (m : jsmap) : jsval :=
  match m with
  | [] => JUndefined
  | (k', v) :: m' => if SameValueZero k' k then v else map_get k m'
  end.

(** [set] keeps the position of a key that is present and appends a new
    one. *)
Fixpoint map_set (k v : jsval) (m : jsmap) : jsmap :=
  match m with
  | [] => [(k, v)]
  | (k', v') :: m' =>
      if SameValueZero k' k then (k', v) :: m'
      else (k', v') :: map_set k v m'
  end.

Fixpoint map_delete (k : jsval) (m : jsmap) : jsmap :=
  match m with
  | [] => []
  | (k', v') :: m' =>
      if SameValueZero k' k then m' else (k', v') :: map_delete k m'
  end.

Definition map_size (m : jsmap) : Z := Z.of_nat (length m).

Definition map_keys (m : jsmap) : list jsval := map fst m.

(** [new Map(entries)] *)
Definition Map_of (entries : list (jsval * jsval)) : jsmap :=
  fold_left (fun m kv => map_set kv.1 kv.2 m) entries [].

(** [Array.prototype.slice(start, end)] with integer arguments. *)
Definition relative_index (len i : Z) : Z :=
  if i <? 0 then Z.max (len + i) 0 else Z.min i len.

Definition slice {A} (l : list A) (start stop : Z) : list A :=
  let len := Z.of_nat (length l) in
  let k := relative_index len start in
  let final := relative_index len stop in
  take (Z.to_nat (Z.max (final - k) 0)) (drop (Z.to_nat k) l).

(** ** JSON documents and the codec *)

Inductive json :=
| json_null
| json_bool (b : bool)
| json_number (n : Z)
| json_string (s : string)
| json_array (items : list json)
| json_object (members : list (string * json)).

(** What the backing file holds, as far as [JSON.parse] can tell. *)
Inductive text :=
| Blank                (* the empty string *)
| Garbage              (* a non-empty text that is not JSON *)
| Doc (j : json).      (* a text that decodes to [j] *)

(** The value [JSON.parse] builds for a document; a repeated member name
    keeps the last value. *)
Fixpoint JSON_value (j : json) : jsval :=
  match j with
  | json_null => JNull
  | json_bool b => JBool b
  | json_number n => JNum n
  | json_string s => JStr s
  | json_array items => JArr (map JSON_value items)
  | json_object members =>
      JObj (fold_left
              (fun ps m => define_property m.1 (JSON_value m.2) ps)
              members [])
  end.

Definition JSON_parse (t : text) : outcome jsval :=
  match t with
  | Doc j => Return (JSON_value j)
  | Blank | Garbage => Throw SyntaxError
  end.

(** SerializeJSONProperty: [None] is the result [undefined].  [undefined]
    and functions vanish from objects and become [null] in arrays, [NaN]
    becomes [null], a BigInt or a cycle raises a TypeError. *)
Fixpoint JSON_stringify (v : jsval) : outcome (option json) :=
  match v with
  | JUndefined | JFunction _ => Return None
  | JNull | JNaN => Return (Some json_null)
  | JBool b => Return (Some (json_bool b))
  | JNum n => Return (Some (json_number n))
  | JStr s => Return (Some (json_string s))
  | JBigInt _ | JSelfRef _ => Throw TypeError
  | JArr elems =>
      match
        (fix items (l : list jsval) : outcome (list json) :=
           match l with
           | [] => Return []
           | x :: l' =>
               match JSON_stringify x with
               | Throw e => Throw e
               | Return o =>
                   match items l' with
                   | Throw e => Throw e
                   | Return js => Return (default json_null o :: js)
                   end
               end
           end) elems
      with
      | Throw e => Throw e
      | Return js => Return (Some (json_array js))
      end
  | JObj ps =>
      match
        (fix members (l : list (string * jsval))
           : outcome (list (string * json)) :=
           match l with
           | [] => Return []
           | (k, x) :: l' =>
               match JSON_stringify x with
               | Throw e => Throw e
               | Return o =>
                   match members l' with
                   | Throw e => Throw e
                   | Return ms =>
                       Return (match o with
                               | Some j => (k, j) :: ms
                               | None => ms
                               end)
                   end
               end
           end) ps
      with
      | Throw e => Throw e
      | Return ms => Return (Some (json_object ms))
      end
  end.

(** The text a [JSON.stringify] result stands for when it is used as one:
    [undefined] reads as the text "undefined", which is not JSON. *)
Definition text_of (o : option json) : text :=
  match o with
  | Some j => Doc j
  | None => Garbage
  end.

(** [_isValidJson(value)] *)
Definition _isValidJson (value : jsval) : bool :=
  match JSON_stringify value with
  | Throw _ => false
  | Return o =>
      match JSON_parse (text_of o) with
      | Throw _ => false
      | Return _ => true
      end
  end.

(** ** The store instance and its surroundings *)

Inductive build := WithLockfile | WithQueue.

Abbreviation addr := nat (only parsing).

(** What an observer of the instance can see happen. *)
Inductive event :=
| EmitError (e : error)            (* emit("error", e) *)
| EmitFileChanged (data : addr)    (* emit("fileChanged", data) *)
| FlushRequested (data : addr)     (* a call of _flushDataIfNeeded(data) *)
| TimerSet (data : addr)           (* setTimeout(callback, delayedWrite) *)
| Wrote (t : text)                 (* a writeFile that succeeded *)
| Unhandled (e : error).           (* a rejected timer callback *)

Record world := World {
  (* the fields of the instance *)
  variant : build;
  useCache : bool;
  delayedWrite : Z;
  dataCache : option addr;
  writeScheduled : bool;
  queue : option error;     (* [Some e]: the promise chain is rejected *)
  (* the Map objects *)
  maps : list jsmap;
  (* the surroundings *)
  file : option text;       (* [None]: the path does not exist *)
  writable : bool;          (* [false]: writeFile is refused *)
  strict_lock : bool;       (* [true]: a held lock refuses a second taker *)
  held : nat;
  watching : bool;
  timers : list addr;       (* pending callbacks, each with its [data] *)
  trace : list event
}.

Definition with_dataCache (c : option addr) (w : world) : world :=
  World (variant w) (useCache w) (delayedWrite w) c (writeScheduled w)
        (queue w) (maps w) (file w) (writable w) (strict_lock w) (held w)
        (watching w) (timers w) (trace w).

Definition with_writeScheduled (b : bool) (w : world) : world :=
  World (variant w) (useCache w) (delayedWrite w) (dataCache w) b
        (queue w) (maps w) (file w) (writable w) (strict_lock w) (held w)
        (watching w) (timers w) (trace w).

Definition with_queue (q : option error) (w : world) : world :=
  World (variant w) (useCache w) (delayedWrite w) (dataCache w)
        (writeScheduled w) q (maps w) (file w) (writable w) (strict_lock w)
        (held w) (watching w) (timers w) (trace w).

Definition with_maps (h : list jsmap) (w : world) : world :=
  World (variant w) (useCache w) (delayedWrite w) (dataCache w)
        (writeScheduled w) (queue w) h (file w) (writable w) (strict_lock w)
        (held w) (watching w) (timers w) (trace w).

Definition with_file (f : option text) (w : world) : world :=
  World (variant w) (useCache w) (delayedWrite w) (dataCache w)
        (writeScheduled w) (queue w) (maps w) f (writable w) (strict_lock w)
        (held w) (watching w) (timers w) (trace w).

Definition with_held (n : nat) (w : world) : world :=
  World (variant w) (useCache w) (delayedWrite w) (dataCache w)
        (writeScheduled w) (queue w) (maps w) (file w) (writable w)
        (strict_lock w) n (watching w) (timers w) (trace w).

Definition with_watching (b : bool) (w : world) : world :=
  World (variant w) (useCache w) (delayedWrite w) (dataCache w)
        (writeScheduled w) (queue w) (maps w) (file w) (writable w)
        (strict_lock w) (held w) b (timers w) (trace w).

Definition with_timers (ts : list addr) (w : world) : world :=
  World (variant w) (useCache w) (delayedWrite w) (dataCache w)
        (writeScheduled w) (queue w) (maps w) (file w) (writable w)
        (strict_lock w) (held w) (watching w) ts (trace w).

Definition with_trace (tr : list event) (w : world) : world :=
  World (variant w) (useCache w) (delayedWrite w) (dataCache w)
        (writeScheduled w) (queue w) (maps w) (file w) (writable w)
        (strict_lock w) (held w) (watching w) (timers w) tr.

(** ** Computations: state passing with exceptions *)

Definition M (A : Type) : Type := world -> outcome A * world.

Definition ret {A} (a : A) : M A := fun w => (Return a, w).

Definition throw {A} (e : error) : M A := fun w => (Throw e, w).

Definition bind {A B} (m : M A) (k : A -> M B) : M B :=
  fun w =>
    match m w with
    | (Return a, w') => k a w'
    | (Throw e, w') => (Throw e, w')
    end.

Notation "x <- m ;; k" := (bind m (fun x => k))
  (at level 62, m at next level, right associativity, only parsing).
Notation "m ;;; k" := (bind m (fun _ => k))
  (at level 62, right associativity, only parsing).

(** [try { body } catch (e) { handler(e) }] *)
Definition try_catch {A} (body : M A) (handler : error -> M A) : M A :=
  fun w =>
    match body w with
    | (Return a, w') => (Return a, w')
    | (Throw e, w') => handler e w'
    end.

(** [try { body } finally { fin }] *)
Definition try_finally {A} (body : M A) (fin : M unit) : M A :=
  fun w =>
    match body w with
    | (r, w') =>
        match fin w' with
        | (Return _, w'') => (r, w'')
        | (Throw e, w'') => (Throw e, w'')
        end
    end.

Definition get {A} (f : world -> A) : M A := fun w => (Return (f w), w).

Definition modify (f : world -> world) : M unit :=
  fun w => (Return tt, f w).

Definition emit (ev : event) : M unit :=
  modify (fun w => with_trace (trace w ++ [ev]) w).

Definition lift {A} (r : outcome A) : M A := fun w => (r, w).

Fixpoint for_each {A} (l : list A) (f : A -> M unit) : M unit :=
  match l with
  | [] => ret tt
  | x :: l' => f x ;;; for_each l' f
  end.

(** ** Primitives of the runtime *)

(** [new Map(...)]: a fresh object, at the next free address. *)
Definition new_Map (m : jsmap) : M addr :=
  fun w => (Return (length (maps w)), with_maps (maps w ++ [m]) w).

Definition deref (data : addr) : M jsmap :=
  fun w =>
    match maps w !! data with
    | Some m => (Return m, w)
    | None => (Throw TypeError, w)
    end.

(** A mutating method call on the Map at [data]. *)
Definition update_map (data : addr) (f : jsmap -> jsmap) : M unit :=
  fun w =>
    match maps w !! data with
    | Some m => (Return tt, with_maps (<[data := f m]> (maps w)) w)
    | None => (Throw TypeError, w)
    end.

(** [fsPromises.readFile(path, "utf8")] *)
Definition readFile : M text :=
  fun w =>
    match file w with
    | Some t => (Return t, w)
    | None => (Throw ENOENT, w)
    end.

(** [fsPromises.writeFile(path, t)] *)
Definition writeFile (t : text) : M unit :=
  fun w =>
    if writable w
    then (Return tt, with_trace (trace w ++ [Wrote t]) (with_file (Some t) w))
    else (Throw EACCES, w).

(** [lockfile.lock(path, { realpath: false })] and the release function it
    resolves to.  The package is not part of the sources; whether a held
    lock turns a second taker away is left to [strict_lock]. *)
Definition lock : M unit :=
  fun w =>
    if strict_lock w && (0 <? held w)%nat then (Throw ELOCKED, w)
    else (Return tt, with_held (S (held w)) w).

Definition release : M unit :=
  modify (fun w => with_held (pred (held w)) w).

(** [setTimeout(callback, this.delayedWrite)], the callback closing over
    [data]. *)
Definition setTimeout (data : addr) : M unit :=
  modify (fun w =>
            with_trace (trace w ++ [TimerSet data])
                       (with_timers (timers w ++ [data]) w)).

(** The bracket the lockfile build puts around its critical sections:
    [const release = await lockfile.lock(...); try {...} finally
    { await release(); }].  The queue build has none. *)
Definition locked {A} (body : M A) : M A :=
  b <- get variant;;
  match b with
  | WithLockfile => lock;;; try_finally body release
  | WithQueue => body
  end.

(** ** The methods of SimpleDB *)

Definition InvalidKey : error := Error "Key must be a string.".
Definition InvalidValue : error := Error "Value must be a valid JSON object.".
Definition KeyExists : error := Error "Key already exists.".

(** [new Map(Object.entries(JSON.parse(data)))] *)
Definition decode (data : text) : M addr :=
  v <- lift (JSON_parse data);;
  entries <- lift (Object_entries v);;
  new_Map (Map_of entries).

(** [_readFromFile()] *)
Definition _readFromFile : M addr :=
  b <- get variant;;
  match b with
  | WithLockfile =>
      lock;;;
      try_finally (data <- readFile;; decode data) release
  | WithQueue =>
      data <- readFile;;
      try_catch (decode data) (fun _ => new_Map [])
  end.

(** [fsPromises.writeFile(this.dbFilePath,
      JSON.stringify(Object.fromEntries(data), null, 2))] *)
Definition write_encoded (data : addr) : M unit :=
  m <- deref data;;
  o <- lift (JSON_stringify (Object_fromEntries m));;
  match o with
  | Some j => writeFile (Doc j)
  | None => throw TypeError
  end.

(** [_writeToFile(data)].  In the queue build a rejected [this.queue] stays
    rejected: [then] skips its callback and every later write fails with
    the first error. *)
Definition _writeToFile (data : addr) : M unit :=
  b <- get variant;;
  match b with
  | WithLockfile =>
      lock;;;
      try_finally (write_encoded data) release
  | WithQueue =>
      q <- get queue;;
      match q with
      | Some e => throw e
      | None =>
          try_catch (write_encoded data)
                    (fun e => modify (with_queue (Some e));;; throw e)
      end
  end.

(** [_flushDataIfNeeded(data)] *)
Definition _flushDataIfNeeded (data : addr) : M unit :=
  emit (FlushRequested data);;;
  m <- deref data;;
  if 0 <? map_size m then
    d <- get delayedWrite;;
    if 0 <? d then
      scheduled <- get writeScheduled;;
      if negb scheduled then
        modify (with_writeScheduled true);;;
        setTimeout data
      else ret tt
    else _writeToFile data
  else ret tt.

(** [this.useCache ? this.dataCache : await this._readFromFile()]; a
    [null] cache fails at the first method call on it. *)
Definition current_data : M addr :=
  c <- get useCache;;
  if c then
    d <- get dataCache;;
    match d with
    | Some data => ret data
    | None => throw TypeError
    end
  else _readFromFile.

(** [if (this.useCache) { this.dataCache = data; }] *)
Definition keep_in_cache (data : addr) : M unit :=
  c <- get useCache;;
  if c then modify (with_dataCache (Some data)) else ret tt.

(** [create(key, value, { overwrite = false } = {})] *)
Definition create (key value : jsval) (overwrite : bool) : M unit :=
  if negb (is_string key) then throw InvalidKey
  else if negb (_isValidJson value) then throw InvalidValue
  else
    locked (
      data <- current_data;;
      m <- deref data;;
      if negb overwrite && map_has key m then throw KeyExists
      else
        update_map data (map_set key value);;;
        keep_in_cache data;;;
        _flushDataIfNeeded data).

(** [read(key)] *)
Definition read (key : jsval) : M jsval :=
  if negb (is_string key) then throw InvalidKey
  else
    data <- current_data;;
    m <- deref data;;
    ret (js_or (map_get key m) JNull).

(** [update(key, value)] *)
Definition update (key value : jsval) : M unit := create key value true.

(** [delete(key)] *)
Definition delete (key : jsval) : M unit :=
  if negb (is_string key) then throw InvalidKey
  else
    locked (
      data <- current_data;;
      update_map data (map_delete key);;;
      keep_in_cache data;;;
      _flushDataIfNeeded data).

(** One element of the array handed to [batchWrite]; a field the caller
    left out is [undefined]. *)
Record operation := Operation {
  op_key : jsval;
  op_value : jsval;
  op_action : jsval
}.

(** [action === name] for a string literal [name] *)
Definition action_is (name : string) (action : jsval) : bool :=
  match action with
  | JStr s => String.eqb s name
  | _ => false
  end.

(** The body of the [forEach] in [batchWrite], as a change of the Map. *)
Definition apply_operation (op : operation) (m : jsmap) : jsmap :=
  if action_is "create" (op_action op) || action_is "update" (op_action op)
  then map_set (op_key op) (op_value op) m
  else if action_is "delete" (op_action op)
  then map_delete (op_key op) m
  else m.

(** [batchWrite(operations)] *)
Definition batchWrite (operations : list operation) : M unit :=
  locked (
    data <- current_data;;
    for_each operations (fun op => update_map data (apply_operation op));;;
    keep_in_cache data;;;
    _flushDataIfNeeded data).

(** [readPage({ pageNumber = 1, pageSize = 10 })]; [None] is a field the
    caller left out. *)
Definition readPage (pageNumber pageSize : option Z) : M jsval :=
  let pageNumber := default 1 pageNumber in
  let pageSize := default 10 pageSize in
  data <- current_data;;
  m <- deref data;;
  let keys := slice (map_keys m)
                    ((pageNumber - 1) * pageSize) (pageNumber * pageSize) in
  let pageData :=
    fold_left (fun page key => map_set key (map_get key m) page) keys [] in
  ret (Object_fromEntries pageData).

(** [readAll()], a method of the queue build only; on an instance of the
    lockfile build the call is a call of [undefined]. *)
Definition readAll : M jsval :=
  b <- get variant;;
  match b with
  | WithQueue =>
      data <- current_data;;
      m <- deref data;;
      ret (Object_fromEntries m)
  | WithLockfile => throw TypeError
  end.

(** [obj[name]] for an own property. *)
Fixpoint own_property (name : string) (ps : props) : option jsval :=
  match ps with
  | [] => None
  | (k, v) :: ps' => if String.eqb name k then Some v else own_property name ps'
  end.

(** [values[key] = data.get(key) || null] for every key, on [values = {}].
    On a fresh object the assignment of a name creates an own property,
    but for the one name "__proto__", which goes to the setter of
    [Object.prototype] and changes the prototype instead: a list of keys
    with that name is outside this embedding, and the result is [None]. *)
Definition assigned (m : jsmap) (keys : list jsval) : option props :=
  if existsb (fun key => String.eqb (ToString key) "__proto__") keys
  then None
  else Some (fold_left
               (fun ps key =>
                  define_property (ToString key) (js_or (map_get key m) JNull)
                                  ps)
               keys []).

(** [batchRead(keys)] *)
Definition batchRead (keys : list jsval) : M (option jsval) :=
  data <- current_data;;
  m <- deref data;;
  ret (JObj <$> assigned m keys).

(** ** Callbacks run by the event loop *)

(** The function handed to [setTimeout]. *)
Definition timer_callback (data : addr) : M unit :=
  _writeToFile data;;;
  modify (with_writeScheduled false).

(** The oldest pending timer expires. *)
Definition fire_timer (w : world) : world :=
  match timers w with
  | [] => w
  | data :: rest =>
      match timer_callback data (with_timers rest w) with
      | (Return _, w') => w'
      | (Throw e, w') => with_trace (trace w' ++ [Unhandled e]) w'
      end
  end.

(** The listener of [_watchFileChanges], on a change of [mtimeMs]. *)
Definition watch_callback : M unit :=
  try_catch
    (data <- _readFromFile;;
     modify (with_dataCache (Some data));;;
     emit (EmitFileChanged data))
    (fun e => emit (EmitError e)).

Definition file_changed (w : world) : world :=
  if watching w then (watch_callback w).2 else w.

(** Another process rewrites the backing file. *)
Definition external_write (t : text) (w : world) : world :=
  with_file (Some t) w.

(** ** Construction *)

Record options := Options {
  opt_useCache : option bool;
  opt_delayedWrite : option Z
}.

(** [_initialize()] *)
Definition _initialize : M unit :=
  try_catch
    (f <- get file;;
     match f with
     | None =>
         writeFile (Doc (json_object []));;;
         data <- new_Map [];;
         modify (with_dataCache (Some data))
     | Some _ =>
         c <- get useCache;;
         if c then
           data <- readFile;;
           cache <- decode (match data with
                            | Blank => Doc (json_object [])
                            | _ => data
                            end);;
           modify (with_dataCache (Some cache))
         else ret tt
     end;;;
     modify (with_watching true))
    (fun e => emit (EmitError e)).

(** [new SimpleDB(options)], up to the end of [this.initialized], in
    surroundings where the path holds [f]. *)
Definition new_SimpleDB (b : build) (o : options)
    (f : option text) (can_write strict : bool) : world :=
  let c := default true (opt_useCache o) in
  (_initialize
     (World b c (default 0 (opt_delayedWrite o))
            (if c then Some 0%nat else None) false None
            (if c then [[]] else [])
            f can_write strict 0 false [] [])).2.

(** ** What a client does between two turns of the event loop *)

Inductive step :=
| Create (key value : jsval) (overwrite : bool)
| Read (key : jsval)
| Update (key value : jsval)
| Delete (key : jsval)
| BatchWrite (operations : list operation)
| ReadPage (pageNumber pageSize : option Z)
| TimerExpires
| FileChanged
| ExternalWrite (t : text).

Definition run_step (s : step) (w : world) : world :=
  match s with
  | Create k v o => (create k v o w).2
  | Read k => (read k w).2
  | Update k v => (update k v w).2
  | Delete k => (delete k w).2
  | BatchWrite ops => (batchWrite ops w).2
  | ReadPage pn ps => (readPage pn ps w).2
  | TimerExpires => fire_timer w
  | FileChanged => file_changed w
  | ExternalWrite t => external_write t w
  end.

Definition run (l : list step) (w : world) : world :=
  fold_left (fun w s => run_step s w) l w.

(** The texts written to the backing file, oldest first. *)
Definition writes (tr : list event) : list text :=
  omap (fun ev => match ev with Wrote t => Some t | _ => None end) tr.

(** The Dataset the instance answers from when the cache is on. *)
Definition cached (w : world) : option jsmap :=
  data ← dataCache w; maps w !! data.

(** ** Notions used in the statements *)

Section jsval_induction.
Variable P : jsval -> Prop.
Hypothesis P_undefined : P JUndefined.
Hypothesis P_null : P JNull.
Hypothesis P_bool : forall b, P (JBool b).
Hypothesis P_num : forall n, P (JNum n).
Hypothesis P_nan : P JNaN.
Hypothesis P_bigint : forall n, P (JBigInt n).
Hypothesis P_str : forall s, P (JStr s).
Hypothesis P_function : forall src, P (JFunction src).
Hypothesis P_arr : forall elems, Forall P elems -> P (JArr elems).
Hypothesis P_obj :
  forall ps : list (string * jsval), Forall (fun kv => P kv.2) ps -> P (JObj ps).
Hypothesis P_selfref : forall name, P (JSelfRef name).

Fixpoint jsval_nested_ind (v : jsval) : P v :=
  match v with
  | JUndefined => P_undefined
  | JNull => P_null
  | JBool b => P_bool b
  | JNum n => P_num n
  | JNaN => P_nan
  | JBigInt n => P_bigint n
  | JStr s => P_str s
  | JFunction src => P_function src
  | JArr elems =>
      P_arr elems
        ((fix all (l : list jsval) : Forall P l :=
            match l with
            | [] => @List.Forall_nil _ P
            | x :: l' =>
                @List.Forall_cons _ P x l' (jsval_nested_ind x) (all l')
            end) elems)
  | JObj ps =>
      P_obj ps
        ((fix all (l : list (string * jsval))
            : Forall (fun kv => P kv.2) l :=
            match l with
            | [] => @List.Forall_nil _ _
            | kv :: l' =>
                @List.Forall_cons _ _ kv l' (jsval_nested_ind kv.2) (all l')
            end) ps)
  | JSelfRef name => P_selfref name
  end.
End jsval_induction.

(** A Map never holds a key twice. *)
Fixpoint keys_distinct (m : jsmap) : bool :=
  match m with
  | [] => true
  | (k, _) :: m' => negb (map_has k m') && keys_distinct m'
  end.

(** An error that is not one of the validation errors [new Error(...)]. *)
Definition system_error (e : error) : bool :=
  match e with
  | Error _ => false
  | _ => true
  end.

Definition add_event (ev : event) (w : world) : world :=
  with_trace (trace w ++ [ev]) w.

(** The instance once the lock of the lockfile build is taken; the queue
    build takes none. *)
Definition entered (w : world) : world :=
  match variant w with
  | WithLockfile => with_held (S (held w)) w
  | WithQueue => w
  end.

Definition lock_granted (w : world) : bool :=
  match variant w with
  | WithLockfile => negb (strict_lock w && (0 <? held w)%nat)
  | WithQueue => true
  end.

Definition leave (b : build) (w : world) : world :=
  match b with
  | WithLockfile => with_held (pred (held w)) w
  | WithQueue => w
  end.

(** [if (this.useCache) this.dataCache = data] after the Map at [data] has
    become [m]. *)
Definition stored (data : addr) (m : jsmap) (w : world) : world :=
  let w' := with_maps (<[data := m]> (maps w)) w in
  if useCache w then with_dataCache (Some data) w' else w'.

Definition apply_operations (ops : list operation) (m : jsmap) : jsmap :=
  fold_left (fun m op => apply_operation op m) ops m.

(** The settings no method ever changes. *)
Definition same_settings (w w' : world) : Prop :=
  variant w' = variant w /\ useCache w' = useCache w /\
  delayedWrite w' = delayedWrite w /\ writable w' = writable w /\
  strict_lock w' = strict_lock w /\ watching w' = watching w.

(** The specification's notion of a JSON-representable value: it goes
    through the codec without loss. *)
Definition json_representable (v : jsval) : Prop :=
  exists j, JSON_stringify v = Return (Some j) /\ JSON_value j = v.

(** Stores to try things on: a new instance over a path that does not
    exist yet, and one over a file with the given text. *)
Definition default_options : options := Options None None.

Definition fresh (b : build) (o : options) : world :=
  new_SimpleDB b o None true false.

Definition opened (b : build) (o : options) (t : text) : world :=
  new_SimpleDB b o (Some t) true false.

(** The Datasets handed to the flush decision, oldest first. *)
Definition flushes (tr : list event) : list addr :=
  omap (fun ev => match ev with FlushRequested d => Some d | _ => None end) tr.



(** Property names of the entries, when every key is a string. *)
Definition as_props (m : jsmap) : props :=
  map (fun kv => (ToString kv.1, kv.2)) m.

(** A key that is a string and no array index. *)
Definition plain_key (kv : jsval * jsval) : bool :=
  is_string kv.1 && bool_decide (array_index (ToString kv.1) = None).

Definition mutation (s : step) : bool :=
  match s with
  | Create _ _ _ | Update _ _ | Delete _ | BatchWrite _ => true
  | Read _ | ReadPage _ _
  | TimerExpires | FileChanged | ExternalWrite _ => false
  end.

(** The cache pointer, when there is one, leads to a Map. *)
Definition cache_valid (w : world) : bool :=
  match dataCache w with
  | Some data => bool_decide (data < length (maps w))%nat
  | None => true
  end.

(** A mutation either stops before the flush decision, having at most
    allocated Maps, or ends with the flush decision on the Dataset it
    changed; the Maps it makes hold no key twice. *)
Definition shape (w w' : world) : Prop :=
  (exists ms, Forall (fun m => keys_distinct m = true) ms /\
              w' = with_maps (maps w ++ ms) w) \/
  (exists data w1 m m',
     current_data (entered w) = (Return data, w1) /\
     maps w1 !! data = Some m /\
     w' = leave (variant w) (_flushDataIfNeeded data (stored data m' w1)).2 /\
     (keys_distinct m = true -> keys_distinct m' = true) /\
     exists ms, Forall (fun m => keys_distinct m = true) ms /\
                w1 = with_maps (maps w ++ ms) (entered w)).


(** A flush is pending on the cached Dataset. *)
Definition pending (data : addr) (w : world) : Prop :=
  useCache w = true /\ 0 < delayedWrite w /\ writeScheduled w = true /\
  timers w = [data] /\ dataCache w = Some data /\
  (data < length (maps w))%nat.

(** What a mutation cannot change while the flush is pending. *)
Definition same_disk (w w' : world) : Prop :=
  file w' = file w /\ writes (trace w') = writes (trace w) /\
  queue w' = queue w /\ held w' = held w /\ writable w' = writable w /\
  variant w' = variant w.

(** What holds of the instance at every step: the cache pointer leads to
    a Map, no Map holds a key twice, a rejected write queue holds a system
    error, and there is at most one timer, with the marker set while it is
    outstanding. *)
Definition sound (w : world) : Prop :=
  cache_valid w = true /\
  Forall (fun m => keys_distinct m = true) (maps w) /\
  (forall e, queue w = Some e -> system_error e = true) /\
  (timers w = [] \/ exists data, timers w = [data] /\ writeScheduled w = true).

(** The worlds a program can be in: a new instance, then any steps. *)
Inductive reachable : world -> Prop :=
| reachable_new b o f can_write strict :
    reachable (new_SimpleDB b o f can_write strict)
| reachable_step s w : reachable w -> reachable (run_step s w).

(** * Properties *)

(** ** Values and key equality *)

Lemma SameValueZero_eq (a b : jsval) : SameValueZero a b = true <-> a = b.
Proof.
  revert b. induction a using jsval_nested_ind; intros [] ; simpl;
    try (split; [discriminate | congruence]); try tauto.
  - rewrite Bool.eqb_true_iff. split; congruence.
  - rewrite Z.eqb_eq. split; congruence.
  - rewrite Z.eqb_eq. split; congruence.
  - rewrite String.eqb_eq. split; congruence.
  - rewrite String.eqb_eq. split; congruence.
  - revert elems0. induction H as [|x xs Hx _ IH]; intros [|y ys];
      try (split; [discriminate | congruence]); try tauto.
    rewrite andb_true_iff, Hx, IH. split.
    + intros [-> E]. congruence.
    + intros E. injection E as -> ->. auto.
  - revert props. induction H as [|[k x] xs Hx _ IH]; intros [|[l y] ys];
      try (split; [discriminate | congruence]); try tauto.
    simpl in Hx.
    rewrite !andb_true_iff, String.eqb_eq, Hx, IH. split.
    + intros [[-> ->] E]. congruence.
    + intros E. injection E as -> -> ->. auto.
  - rewrite String.eqb_eq. split; congruence.
Qed.

Lemma SameValueZero_refl (a : jsval) : SameValueZero a a = true.
Proof. by apply SameValueZero_eq. Qed.

Lemma SameValueZero_neq (a b : jsval) : SameValueZero a b = false <-> a <> b.
Proof.
  rewrite <- SameValueZero_eq. destruct (SameValueZero a b); split; congruence.
Qed.

(** ** Map objects *)

Lemma map_has_get_absent (k : jsval) (m : jsmap) :
  map_has k m = false -> map_get k m = JUndefined.
Proof.
  induction m as [|[k' v'] m IH]; simpl; [done|].
  destruct (SameValueZero k' k); simpl; [discriminate | exact IH].
Qed.

Lemma map_get_set (k v : jsval) (m : jsmap) : map_get k (map_set k v m) = v.
Proof.
  induction m as [|[k' v'] m IH]; simpl.
  - by rewrite SameValueZero_refl.
  - destruct (SameValueZero k' k) eqn:E; simpl; rewrite E; [done | exact IH].
Qed.

Lemma map_has_set (k v : jsval) (m : jsmap) : map_has k (map_set k v m) = true.
Proof.
  induction m as [|[k' v'] m IH]; simpl.
  - by rewrite SameValueZero_refl.
  - destruct (SameValueZero k' k) eqn:E; simpl; rewrite E; [done | exact IH].
Qed.

Lemma map_has_set_other (k k' v : jsval) (m : jsmap) :
  k <> k' -> map_has k' (map_set k v m) = map_has k' m.
Proof.
  intros Hne. induction m as [|[k0 v0] m IH]; simpl.
  - apply SameValueZero_neq in Hne. by rewrite Hne.
  - destruct (SameValueZero k0 k) eqn:E; simpl; [done|]. by rewrite IH.
Qed.

Lemma map_get_set_other (k k' v : jsval) (m : jsmap) :
  k <> k' -> map_get k' (map_set k v m) = map_get k' m.
Proof.
  intros Hne. induction m as [|[k0 v0] m IH]; simpl.
  - apply SameValueZero_neq in Hne. by rewrite Hne.
  - destruct (SameValueZero k0 k) eqn:E; simpl.
    + apply SameValueZero_eq in E as ->.
      apply SameValueZero_neq in Hne. by rewrite Hne.
    + by rewrite IH.
Qed.

Lemma map_set_length (k v : jsval) (m : jsmap) :
  (0 < length (map_set k v m))%nat.
Proof. destruct m as [|[k' v'] m]; simpl; [lia|]. destruct SameValueZero; simpl; lia. Qed.

Lemma map_delete_absent (k : jsval) (m : jsmap) :
  map_has k m = false -> map_delete k m = m.
Proof.
  induction m as [|[k' v'] m IH]; simpl; [done|].
  destruct (SameValueZero k' k); simpl; [discriminate|].
  intros H. by rewrite IH.
Qed.

Lemma map_has_delete_other (k k' : jsval) (m : jsmap) :
  map_has k' (map_delete k m) = true -> map_has k' m = true.
Proof.
  induction m as [|[k0 v0] m IH]; simpl; [done|].
  destruct (SameValueZero k0 k); simpl.
  - intros ->. apply orb_true_r.
  - destruct (SameValueZero k0 k'); simpl; auto.
Qed.

Lemma map_has_delete (k : jsval) (m : jsmap) :
  keys_distinct m = true -> map_has k (map_delete k m) = false.
Proof.
  induction m as [|[k' v'] m IH]; simpl; [done|].
  intros [Hk Hm]%andb_true_iff. apply negb_true_iff in Hk.
  destruct (SameValueZero k' k) eqn:E; simpl.
  - apply SameValueZero_eq in E as ->. exact Hk.
  - rewrite E. auto.
Qed.

Lemma keys_distinct_set (k v : jsval) (m : jsmap) :
  keys_distinct m = true -> keys_distinct (map_set k v m) = true.
Proof.
  induction m as [|[k' v'] m IH]; simpl; [done|].
  intros [Hk Hm]%andb_true_iff.
  destruct (SameValueZero k' k) eqn:E; simpl.
  - by rewrite Hk, Hm.
  - rewrite IH by done. rewrite map_has_set_other, Hk; [done|].
    intros ->. by rewrite SameValueZero_refl in E.
Qed.

Lemma keys_distinct_delete (k : jsval) (m : jsmap) :
  keys_distinct m = true -> keys_distinct (map_delete k m) = true.
Proof.
  induction m as [|[k' v'] m IH]; simpl; [done|].
  intros [Hk Hm]%andb_true_iff.
  destruct (SameValueZero k' k) eqn:E; simpl; [done|].
  rewrite IH by done. rewrite andb_true_r. apply negb_true_iff.
  apply negb_true_iff in Hk.
  destruct (map_has k' (map_delete k m)) eqn:F; [|done].
  apply map_has_delete_other in F. congruence.
Qed.

Lemma keys_distinct_Map_of (entries : list (jsval * jsval)) :
  keys_distinct (Map_of entries) = true.
Proof.
  unfold Map_of.
  assert (G : forall acc : jsmap, keys_distinct acc = true ->
            keys_distinct
              (fold_left (fun m kv => map_set kv.1 kv.2 m) entries acc) = true).
  { induction entries as [|[k v] es IH]; intros acc Hacc; simpl; [done|].
    apply IH. by apply keys_distinct_set. }
  by apply G.
Qed.

(** [JSON.stringify] raises nothing but a TypeError. *)
Lemma JSON_stringify_throws (v : jsval) (e : error) :
  JSON_stringify v = Throw e -> e = TypeError.
Proof.
  revert e. induction v as [| | | | | | | |elems IH|ps IH|] using jsval_nested_ind;
    intros e; simpl; try congruence.
  - assert (G : forall e',
        (fix items (l : list jsval) : outcome (list json) :=
           match l with
           | [] => Return []
           | x :: l' =>
               match JSON_stringify x with
               | Throw e => Throw e
               | Return o =>
                   match items l' with
                   | Throw e => Throw e
                   | Return js => Return (default json_null o :: js)
                   end
               end
           end) elems = Throw e' -> e' = TypeError).
    { induction IH as [|x l Hx _ IHl]; intros e'; [discriminate|].
      destruct (JSON_stringify x) as [o|ex] eqn:Ex.
      - destruct ((fix items (l : list jsval) : outcome (list json) := _) l)
          as [js|el] eqn:El; [discriminate|].
        intros [= <-]. by apply IHl.
      - intros [= <-]. by apply Hx. }
    destruct ((fix items (l : list jsval) : outcome (list json) := _) elems)
      as [js|el] eqn:El; [discriminate|].
    intros [= <-]. by apply G.
  - assert (G : forall e',
        (fix members (l : list (string * jsval))
           : outcome (list (string * json)) :=
           match l with
           | [] => Return []
           | (k, x) :: l' =>
               match JSON_stringify x with
               | Throw e => Throw e
               | Return o =>
                   match members l' with
                   | Throw e => Throw e
                   | Return ms =>
                       Return (match o with
                               | Some j => (k, j) :: ms
                               | None => ms
                               end)
                   end
               end
           end) ps = Throw e' -> e' = TypeError).
    { induction IH as [|[k x] l Hx _ IHl]; intros e'; [discriminate|].
      simpl in Hx.
      destruct (JSON_stringify x) as [o|ex] eqn:Ex.
      - destruct ((fix members (l : list (string * jsval))
                     : outcome (list (string * json)) := _) l)
          as [ms|el] eqn:El; [discriminate|].
        intros [= <-]. by apply IHl.
      - intros [= <-]. by apply Hx. }
    destruct ((fix members (l : list (string * jsval))
                 : outcome (list (string * json)) := _) ps)
      as [ms|el] eqn:El; [discriminate|].
    intros [= <-]. by apply G.
Qed.

(** An object always encodes to a document. *)
Lemma JSON_stringify_object (ps : list (string * jsval)) (o : option json) :
  JSON_stringify (JObj ps) = Return o -> exists j, o = Some j.
Proof.
  simpl. destruct (_ : outcome (list (string * json))); [|discriminate].
  intros [= <-]. eauto.
Qed.

(** ** Running the methods *)

#[local] Arguments JSON_stringify : simpl never.
#[local] Arguments Object_fromEntries : simpl never.
#[local] Arguments _isValidJson : simpl never.
#[local] Arguments map_set : simpl never.
#[local] Arguments map_get : simpl never.
#[local] Arguments map_has : simpl never.
#[local] Arguments map_delete : simpl never.
#[local] Arguments map_size : simpl never.
#[local] Arguments Map_of : simpl never.
#[local] Arguments keys_distinct : simpl never.

Ltac unfold_monad :=
  unfold locked, lock, release, readFile, writeFile, deref, update_map,
    new_Map, setTimeout, emit, modify, get, lift, try_catch, try_finally,
    bind, ret, throw in *.

(** [_readFromFile] either fails and leaves everything as it was, or
    allocates one fresh Map and changes nothing else. *)
Lemma _readFromFile_cases (w : world) :
  (exists e, system_error e = true /\ _readFromFile w = (Throw e, w)) \/
  (exists m, keys_distinct m = true /\
             _readFromFile w =
               (Return (length (maps w)), with_maps (maps w ++ [m]) w)).
Proof.
  destruct w as [b c d dc ws q h f wr sl hd wt ts tr].
  unfold _readFromFile, decode. unfold_monad. simpl.
  destruct b; simpl.
  - destruct (sl && (0 <? hd)%nat); simpl.
    { left. by exists ELOCKED. }
    destruct f as [t|]; simpl.
    2:{ left. by exists ENOENT. }
    destruct t as [| |j]; simpl.
    1,2: left; by exists SyntaxError.
    destruct (Object_entries (JSON_value j)) as [es|e] eqn:E; simpl.
    + right. exists (Map_of es). split; [apply keys_distinct_Map_of | done].
    + left. exists e. split; [|done].
      destruct (JSON_value j); simpl in E; by simplify_eq.
  - destruct f as [t|]; simpl.
    2:{ left. by exists ENOENT. }
    destruct (JSON_parse t) as [v|e]; simpl.
    + destruct (Object_entries v) as [es|e]; simpl.
      * right. exists (Map_of es). split; [apply keys_distinct_Map_of | done].
      * right. by exists [].
    + right. by exists [].
Qed.

(** How an operation gets hold of the Dataset. *)
Lemma current_data_cases (w : world) :
  (exists e, system_error e = true /\ current_data w = (Throw e, w)) \/
  (useCache w = true /\
   exists data, dataCache w = Some data /\ current_data w = (Return data, w)) \/
  (useCache w = false /\
   exists m, keys_distinct m = true /\
             current_data w =
               (Return (length (maps w)), with_maps (maps w ++ [m]) w)).
Proof.
  unfold current_data. unfold_monad.
  destruct (useCache w) eqn:Hc.
  - destruct (dataCache w) as [data|] eqn:Hd.
    2:{ left. by exists TypeError. }
    right. left. eauto.
  - destruct (_readFromFile_cases w) as [(e & He & ->)|(m & Hm & ->)]; [eauto|].
    right. right. eauto.
Qed.

(** [_writeToFile] either fails without touching the file, or writes the
    encoding of the Map as it is at that moment. *)
Lemma _writeToFile_cases (data : addr) (w : world) :
  (exists e w', _writeToFile data w = (Throw e, w') /\
                (w' = w \/ w' = with_queue (Some e) w) /\
                (system_error e = true \/ queue w = Some e)) \/
  (exists m j, maps w !! data = Some m /\
               JSON_stringify (Object_fromEntries m) = Return (Some j) /\
               _writeToFile data w =
                 (Return tt,
                  with_trace (trace w ++ [Wrote (Doc j)])
                             (with_file (Some (Doc j)) w))).
Proof.
  destruct w as [b c d dc ws q h f wr sl hd wt ts tr].
  unfold _writeToFile, write_encoded. unfold_monad. simpl.
  destruct b; simpl.
  - destruct (sl && (0 <? hd)%nat); simpl.
    { left. eexists _, _. eauto. }
    destruct (h !! data) as [m|] eqn:Hm; simpl.
    2:{ left. eexists _, _. eauto. }
    destruct (JSON_stringify (Object_fromEntries m)) as [[j|]|e] eqn:Hj; simpl.
    + destruct wr; simpl.
      * right. eexists _, _. eauto.
      * left. eexists _, _. eauto.
    + left. eexists _, _. eauto.
    + left. eexists _, _. split; [done|]. split; [by left|].
      left. by rewrite (JSON_stringify_throws _ _ Hj).
  - destruct q as [e|]; simpl.
    { left. eexists _, _. eauto. }
    destruct (h !! data) as [m|] eqn:Hm; simpl.
    2:{ left. eexists _, _. eauto. }
    destruct (JSON_stringify (Object_fromEntries m)) as [[j|]|e] eqn:Hj; simpl.
    + destruct wr; simpl.
      * right. eexists _, _. eauto.
      * left. eexists _, _. eauto.
    + left. eexists _, _. eauto.
    + left. eexists _, _. split; [done|]. split; [by right|].
      left. by rewrite (JSON_stringify_throws _ _ Hj).
Qed.

(** When nothing stands in the way, the write goes through. *)
Lemma _writeToFile_ok (data : addr) (w : world) (m : jsmap) (j : json) :
  maps w !! data = Some m ->
  JSON_stringify (Object_fromEntries m) = Return (Some j) ->
  writable w = true ->
  queue w = None ->
  held w = 0%nat ->
  _writeToFile data w =
    (Return tt,
     with_trace (trace w ++ [Wrote (Doc j)]) (with_file (Some (Doc j)) w)).
Proof.
  destruct w as [b c d dc ws q h f wr sl hd wt ts tr]. simpl.
  intros Hm Hj -> -> ->.
  unfold _writeToFile, write_encoded. unfold_monad. simpl.
  destruct b; simpl.
  - rewrite andb_false_r. simpl. rewrite Hm. simpl. by rewrite Hj.
  - rewrite Hm. simpl. by rewrite Hj.
Qed.

(** The four ways through [_flushDataIfNeeded]. *)
Lemma flush_empty (data : addr) (w : world) :
  maps w !! data = Some [] ->
  _flushDataIfNeeded data w = (Return tt, add_event (FlushRequested data) w).
Proof.
  destruct w as [b c d dc ws q h f wr sl hd wt ts tr]. simpl. intros Hm.
  unfold _flushDataIfNeeded. unfold_monad. simpl. by rewrite Hm.
Qed.

Lemma flush_pending (data : addr) (w : world) (m : jsmap) :
  maps w !! data = Some m ->
  0 < delayedWrite w ->
  writeScheduled w = true ->
  _flushDataIfNeeded data w = (Return tt, add_event (FlushRequested data) w).
Proof.
  destruct w as [b c d dc ws q h f wr sl hd wt ts tr]. simpl.
  intros Hm Hd ->.
  unfold _flushDataIfNeeded. unfold_monad. simpl. rewrite Hm. simpl.
  destruct (0 <? map_size m); simpl; [|done].
  apply Z.ltb_lt in Hd. by rewrite Hd.
Qed.

Lemma flush_schedule (data : addr) (w : world) (m : jsmap) :
  maps w !! data = Some m ->
  m <> [] ->
  0 < delayedWrite w ->
  writeScheduled w = false ->
  _flushDataIfNeeded data w =
    (Return tt,
     add_event (TimerSet data)
       (with_timers (timers w ++ [data])
          (with_writeScheduled true (add_event (FlushRequested data) w)))).
Proof.
  destruct w as [b c d dc ws q h f wr sl hd wt ts tr]. simpl.
  intros Hm Hne Hd ->.
  unfold _flushDataIfNeeded. unfold_monad. simpl. rewrite Hm. simpl.
  replace (0 <? map_size m) with true.
  2:{ symmetry. apply Z.ltb_lt. unfold map_size. destruct m; [done|].
      simpl. lia. }
  simpl. apply Z.ltb_lt in Hd. by rewrite Hd.
Qed.

Lemma flush_now (data : addr) (w : world) (m : jsmap) :
  maps w !! data = Some m ->
  m <> [] ->
  delayedWrite w <= 0 ->
  _flushDataIfNeeded data w =
    _writeToFile data (add_event (FlushRequested data) w).
Proof.
  destruct w as [b c d dc ws q h f wr sl hd wt ts tr]. simpl.
  intros Hm Hne Hd.
  unfold _flushDataIfNeeded. unfold_monad. simpl. rewrite Hm. simpl.
  replace (0 <? map_size m) with true.
  2:{ symmetry. apply Z.ltb_lt. unfold map_size. destruct m; [done|].
      simpl. lia. }
  simpl. apply Z.ltb_ge in Hd. by rewrite Hd.
Qed.

(** *** The critical section *)

Lemma locked_refused {A} (body : M A) (w : world) :
  lock_granted w = false -> locked body w = (Throw ELOCKED, w).
Proof.
  unfold lock_granted. unfold_monad. destruct (variant w); [|done].
  intros ->%negb_false_iff. done.
Qed.

Lemma locked_granted {A} (body : M A) (w w' : world) (r : outcome A) :
  lock_granted w = true ->
  body (entered w) = (r, w') ->
  locked body w = (r, leave (variant w) w').
Proof.
  unfold lock_granted, entered, leave. unfold_monad.
  destruct (variant w).
  - intros ->%negb_true_iff ->. by destruct r.
  - by intros _ ->.
Qed.

Lemma for_each_update (data : addr) (ops : list operation) (w : world)
    (m : jsmap) :
  maps w !! data = Some m ->
  for_each ops (fun op => update_map data (apply_operation op)) w =
    (Return tt, with_maps (<[data := apply_operations ops m]> (maps w)) w).
Proof.
  revert w m. induction ops as [|op ops IH]; intros w m Hm; simpl.
  - unfold_monad. rewrite list_insert_id by done. by destruct w.
  - unfold bind at 1. unfold update_map at 1. rewrite Hm.
    erewrite IH.
    2:{ destruct w; simpl in *. apply list_lookup_insert_eq.
        by eapply lookup_lt_Some. }
    destruct w; simpl. by rewrite list_insert_insert_eq.
Qed.

Lemma stored_eq (data : addr) (f : jsmap -> jsmap) (m : jsmap) (w : world) :
  maps w !! data = Some m ->
  (update_map data f;;; keep_in_cache data) w =
    (Return tt, stored data (f m) w).
Proof.
  intros Hm. unfold keep_in_cache, stored. unfold_monad. rewrite Hm.
  by destruct w as [b [] d dc ws q h fl wr sl hd wt ts tr].
Qed.

Section critical_section.
Context (w w1 : world) (data : addr) (m : jsmap).
Hypothesis granted : lock_granted w = true.
Hypothesis got : current_data (entered w) = (Return data, w1).
Hypothesis holds : maps w1 !! data = Some m.

Lemma create_run (key value : jsval) (overwrite : bool) :
  is_string key = true ->
  _isValidJson value = true ->
  create key value overwrite w =
    if negb overwrite && map_has key m
    then (Throw KeyExists, leave (variant w) w1)
    else
      let r := _flushDataIfNeeded data (stored data (map_set key value m) w1)
      in (r.1, leave (variant w) r.2).
Proof.
  intros Hk Hv. unfold create. rewrite Hk, Hv. simpl.
  pose proof (stored_eq data (map_set key value) m w1 holds) as Hs.
  destruct (negb overwrite && map_has key m) eqn:E.
  - apply locked_granted; [done|].
    unfold bind at 1. rewrite got.
    unfold bind at 1. unfold deref at 1. rewrite holds. by rewrite E.
  - destruct (_flushDataIfNeeded _ _) as [r w'] eqn:F. simpl.
    apply locked_granted; [done|].
    unfold bind at 1. rewrite got.
    unfold bind at 1. unfold deref at 1. rewrite holds, E.
    unfold bind in Hs |- *. destruct (update_map _ _ w1) as [[[]|] ?];
      [|discriminate].
    destruct (keep_in_cache data w0) as [[[]|] ?]; [|discriminate].
    by injection Hs as ->.
Qed.

Lemma delete_run (key : jsval) :
  is_string key = true ->
  delete key w =
    let r := _flushDataIfNeeded data (stored data (map_delete key m) w1)
    in (r.1, leave (variant w) r.2).
Proof.
  intros Hk. unfold delete. rewrite Hk. simpl.
  pose proof (stored_eq data (map_delete key) m w1 holds) as Hs.
  destruct (_flushDataIfNeeded _ _) as [r w'] eqn:F. simpl.
  apply locked_granted; [done|].
  unfold bind at 1. rewrite got.
  unfold bind in Hs |- *. destruct (update_map _ _ w1) as [[[]|] ?];
    [|discriminate].
  destruct (keep_in_cache data w0) as [[[]|] ?]; [|discriminate].
  by injection Hs as ->.
Qed.

Lemma batchWrite_run (ops : list operation) :
  batchWrite ops w =
    let r := _flushDataIfNeeded data
               (stored data (apply_operations ops m) w1)
    in (r.1, leave (variant w) r.2).
Proof.
  unfold batchWrite.
  destruct (_flushDataIfNeeded _ _) as [r w'] eqn:F. simpl.
  apply locked_granted; [done|].
  unfold bind at 1. rewrite got.
  unfold bind at 1. rewrite (for_each_update _ _ _ _ holds).
  unfold keep_in_cache. unfold_monad. unfold stored in F.
  destruct w1 as [b [] d dc ws q h f wr sl hd wt ts tr]; simpl in *;
    by rewrite F.
Qed.
End critical_section.

Lemma _flushDataIfNeeded_cases (data : addr) (w : world) :
  let w0 := add_event (FlushRequested data) w in
  (maps w !! data = None /\
   _flushDataIfNeeded data w = (Throw TypeError, w0)) \/
  (exists m, maps w !! data = Some m /\
     ((m = [] \/ (0 < delayedWrite w /\ writeScheduled w = true)) /\
      _flushDataIfNeeded data w = (Return tt, w0) \/
      m <> [] /\ 0 < delayedWrite w /\ writeScheduled w = false /\
      _flushDataIfNeeded data w =
        (Return tt,
         add_event (TimerSet data)
           (with_timers (timers w ++ [data]) (with_writeScheduled true w0))) \/
      m <> [] /\ delayedWrite w <= 0 /\
      _flushDataIfNeeded data w = _writeToFile data w0)).
Proof.
  intros w0. destruct (maps w !! data) as [m|] eqn:Hm.
  - right. exists m. split; [done|].
    destruct m as [|kv m].
    { left. split; [by left|]. by apply flush_empty. }
    destruct (Z.lt_ge_cases 0 (delayedWrite w)) as [Hd|Hd].
    + destruct (writeScheduled w) eqn:Hs.
      * left. split; [by right|]. by eapply flush_pending.
      * right. left. repeat split; try done. by eapply flush_schedule.
    + right. right. repeat split; try done. by eapply flush_now.
  - left. split; [done|].
    destruct w as [b c d dc ws q h f wr sl hd wt ts tr]. simpl in *.
    unfold _flushDataIfNeeded. unfold_monad. simpl. by rewrite Hm.
Qed.

(** The flush decision never touches a Map or the cache pointer, and it
    shows in the trace. *)
Lemma _flushDataIfNeeded_frame (data : addr) (w : world) :
  let w' := (_flushDataIfNeeded data w).2 in
  same_settings w w' /\
  maps w' = maps w /\ dataCache w' = dataCache w /\ held w' = held w /\
  exists tr, trace w' = trace w ++ FlushRequested data :: tr /\
             (tr = [] \/ tr = [TimerSet data] \/ exists j, tr = [Wrote (Doc j)]).
Proof.
  destruct (_flushDataIfNeeded_cases data w)
    as [[_ ->]|(m & _ & [[_ ->]|[(_ & _ & _ & ->)|(_ & _ & ->)]])]; simpl.
  1-3: destruct w; simpl; repeat split; eauto.
  - exists [TimerSet data]. rewrite <- app_assoc. eauto.
  - destruct (_writeToFile_cases data (add_event (FlushRequested data) w))
      as [(e & w' & -> & [->| ->] & _)|(m' & j & _ & _ & ->)];
      destruct w; simpl; repeat split; eauto.
    exists [Wrote (Doc j)]. rewrite <- app_assoc. eauto.
Qed.

Lemma current_data_frame (w w1 : world) (data : addr) :
  current_data w = (Return data, w1) ->
  (useCache w = true /\ w1 = w /\ dataCache w = Some data) \/
  (useCache w = false /\ data = length (maps w) /\
   exists m, keys_distinct m = true /\ w1 = with_maps (maps w ++ [m]) w).
Proof.
  intros H.
  destruct (current_data_cases w)
    as [(e & _ & He)|[(Hc & d & Hd & He)|(Hc & m & Hm & He)]];
    rewrite He in H; [discriminate| |].
  - left. injection H as <- <-. done.
  - right. injection H as <- <-. eauto.
Qed.

(** ** Validation and the outcomes of [create] *)

Lemma _isValidJson_false (value : jsval) :
  _isValidJson value = false <->
  (exists e, JSON_stringify value = Throw e) \/
  JSON_stringify value = Return None.
Proof.
  unfold _isValidJson.
  destruct (JSON_stringify value) as [[j|]|e]; simpl.
  - split; [discriminate|]. intros [[e [=]]|[=]].
  - split; [eauto|done].
  - split; [eauto|done].
Qed.

(** A value that is not representable is not always refused: what
    [_isValidJson] refuses is less. *)
Lemma json_representable_valid (v : jsval) :
  json_representable v -> _isValidJson v = true.
Proof.
  intros (j & Hj & _). unfold _isValidJson. by rewrite Hj.
Qed.

Lemma leave_maps (b : build) (w : world) : maps (leave b w) = maps w.
Proof. by destruct b. Qed.

Lemma leave_trace (b : build) (w : world) : trace (leave b w) = trace w.
Proof. by destruct b. Qed.

Lemma leave_file (b : build) (w : world) : file (leave b w) = file w.
Proof. by destruct b. Qed.

Lemma leave_timers (b : build) (w : world) : timers (leave b w) = timers w.
Proof. by destruct b. Qed.

Lemma leave_writeScheduled (b : build) (w : world) :
  writeScheduled (leave b w) = writeScheduled w.
Proof. by destruct b. Qed.

Lemma leave_dataCache (b : build) (w : world) :
  dataCache (leave b w) = dataCache w.
Proof. by destruct b. Qed.

Lemma leave_entered_fields (w w1 : world) (data : addr) :
  current_data (entered w) = (Return data, w1) ->
  trace w1 = trace w /\ file w1 = file w /\ timers w1 = timers w /\
  writeScheduled w1 = writeScheduled w /\ variant w1 = variant w /\
  useCache w1 = useCache w /\ delayedWrite w1 = delayedWrite w /\
  queue w1 = queue w /\ writable w1 = writable w /\
  dataCache w1 = dataCache w /\ held w1 = held (entered w) /\
  strict_lock w1 = strict_lock w.
Proof.
  intros [(_ & -> & _)|(_ & _ & m & _ & ->)]%current_data_frame;
    unfold entered; destruct (variant w) eqn:E; simpl; rewrite ?E; done.
Qed.

Lemma stored_lookup (data : addr) (m m' : jsmap) (w : world) :
  maps w !! data = Some m -> maps (stored data m' w) !! data = Some m'.
Proof.
  intros Hm. unfold stored.
  destruct (useCache w); simpl; apply list_lookup_insert_eq;
    by eapply lookup_lt_Some.
Qed.

(** C5, as amended.  [create] refuses a key that is not a string with
    InvalidKey; else refuses with InvalidValue a value on which
    [JSON.stringify] throws or yields [undefined] (and only such a value);
    else, once it holds the lock and the Dataset, refuses with KeyExists a
    key that is present unless [overwrite] is set, leaving the Dataset as
    it was; and in every remaining case puts the value under the key and
    calls the flush decision on that Dataset. *)
Theorem create_outcomes (w : world) (key value : jsval) (overwrite : bool) :
  (is_string key = false ->
   create key value overwrite w = (Throw InvalidKey, w)) /\
  (is_string key = true -> _isValidJson value = false ->
   create key value overwrite w = (Throw InvalidValue, w)) /\
  (_isValidJson value = false <->
   (exists e, JSON_stringify value = Throw e) \/
   JSON_stringify value = Return None) /\
  (is_string key = true -> _isValidJson value = true ->
   lock_granted w = true ->
   forall data w1 m,
     current_data (entered w) = (Return data, w1) ->
     maps w1 !! data = Some m ->
     let r := create key value overwrite w in
     if negb overwrite && map_has key m
     then r.1 = Throw KeyExists /\
          maps r.2 !! data = Some m /\ trace r.2 = trace w
     else maps r.2 !! data = Some (map_set key value m) /\
          map_get key (map_set key value m) = value /\
          exists tr, trace r.2 = trace w ++ FlushRequested data :: tr).
Proof.
  split; [|split; [|split]].
  - intros Hk. unfold create. by rewrite Hk.
  - intros Hk Hv. unfold create. by rewrite Hk, Hv.
  - apply _isValidJson_false.
  - intros Hk Hv Hg data w1 m Hd Hm. simpl.
    rewrite (create_run w w1 data m) by done.
    pose proof (leave_entered_fields _ _ _ Hd) as (Ht & _).
    destruct (negb overwrite && map_has key m); simpl.
    + by rewrite leave_maps, leave_trace.
    + set (s := stored data (map_set key value m) w1).
      destruct (_flushDataIfNeeded_frame data s)
        as (_ & Hmaps & _ & _ & tr & Htr & _).
      rewrite leave_maps, leave_trace, Hmaps, Htr.
      split; [by eapply stored_lookup|]. split; [apply map_get_set|].
      exists tr. rewrite <- Ht. unfold s, stored. by destruct (useCache w1).
Qed.

Lemma create_outcomes_witness :
  let w := fresh WithQueue default_options in
  let w' := (create (JStr "k") (JNum 1) false w).2 in
  create (JNum 7) (JNum 1) false w = (Throw InvalidKey, w) /\
  create (JStr "k") (JBigInt 1) false w = (Throw InvalidValue, w) /\
  maps w' !! 1%nat = Some [(JStr "k", JNum 1)] /\
  (create (JStr "k") (JNum 2) false w').1 = Throw KeyExists /\
  maps (create (JStr "k") (JNum 2) true w').2 !! 1%nat
    = Some [(JStr "k", JNum 2)].
Proof.
  intros w w'.
  pose proof (create_outcomes w (JNum 7) (JNum 1) false) as (H1 & _).
  pose proof (create_outcomes w (JStr "k") (JBigInt 1) false) as (_ & H2 & _).
  pose proof (create_outcomes w (JStr "k") (JNum 1) false) as (_ & _ & _ & H3).
  pose proof (create_outcomes w' (JStr "k") (JNum 2) false) as (_ & _ & _ & H4).
  pose proof (create_outcomes w' (JStr "k") (JNum 2) true) as (_ & _ & _ & H5).
  split; [exact (H1 eq_refl)|].
  split; [exact (H2 eq_refl eq_refl)|].
  split; [exact (proj1 (H3 eq_refl eq_refl eq_refl 1%nat w [] eq_refl eq_refl))|].
  split; [exact (proj1 (H4 eq_refl eq_refl eq_refl 1%nat w'
                          [(JStr "k", JNum 1)] eq_refl eq_refl))|].
  exact (proj1 (H5 eq_refl eq_refl eq_refl 1%nat w'
                  [(JStr "k", JNum 1)] eq_refl eq_refl)).
Defined.

(** C5 as stated fails: NaN, and an object with a function inside, do not
    go through the codec without loss, yet [create] stores them.  (And
    where the Dataset cannot be had, here from a file that is not JSON
    under the lockfile build with the cache off, [create] ends in none of
    the four ways.) *)
Lemma create_accepts_unrepresentable :
  let w := fresh WithQueue default_options in
  let lossy := JObj [("f", JFunction "() => 1")] in
  let g := opened WithLockfile (Options (Some false) None) Garbage in
  ~ json_representable JNaN /\
  (create (JStr "k") JNaN false w).1 = Return tt /\
  cached (create (JStr "k") JNaN false w).2 = Some [(JStr "k", JNaN)] /\
  ~ json_representable lossy /\
  (create (JStr "k") lossy false w).1 = Return tt /\
  cached (create (JStr "k") lossy false w).2 = Some [(JStr "k", lossy)] /\
  create (JStr "k") (JNum 1) false g = (Throw SyntaxError, g).
Proof.
  repeat split; try reflexivity.
  - intros (j & Hj & Hv). vm_compute in Hj. injection Hj as <-. discriminate.
  - intros (j & Hj & Hv). vm_compute in Hj. injection Hj as <-. discriminate.
Qed.

(** ** Batches *)

Lemma flushes_after_flush (data : addr) (w : world) :
  let w' := (_flushDataIfNeeded data w).2 in
  flushes (trace w') = flushes (trace w) ++ [data] /\
  (length (writes (trace w')) <= length (writes (trace w)) + 1)%nat.
Proof.
  cbv zeta.
  destruct (_flushDataIfNeeded_frame data w)
    as (_ & _ & _ & _ & tr & -> & Htr).
  unfold flushes, writes. rewrite !omap_app, !length_app. simpl.
  destruct Htr as [->|[->|[j ->]]]; simpl; split; try done; lia.
Qed.

Lemma _flushDataIfNeeded_throws (data : addr) (w w' : world) (e : error) :
  _flushDataIfNeeded data w = (Throw e, w') ->
  system_error e = true \/ queue w = Some e.
Proof.
  destruct (_flushDataIfNeeded_cases data w)
    as [[_ ->]|(m & _ & [[_ ->]|[(_ & _ & _ & ->)|(_ & _ & ->)]])];
    try discriminate.
  - intros [= <- _]. by left.
  - destruct (_writeToFile_cases data (add_event (FlushRequested data) w))
      as [(e' & w'' & -> & _ & He)|(m' & j & _ & _ & ->)]; [|discriminate].
    intros [= <- _]. by destruct w.
Qed.

Lemma for_each_update_nowhere (data : addr) (ops : list operation)
    (w : world) :
  maps w !! data = None ->
  for_each ops (fun op => update_map data (apply_operation op)) w =
    (match ops with [] => Return tt | _ => Throw TypeError end, w).
Proof.
  intros Hm. destruct ops as [|op ops]; simpl; [done|].
  unfold bind, update_map. by rewrite Hm.
Qed.

Lemma batchWrite_throws (ops : list operation) (w : world) (e : error) :
  (batchWrite ops w).1 = Throw e ->
  system_error e = true \/ queue w = Some e.
Proof.
  destruct (lock_granted w) eqn:G.
  2:{ unfold batchWrite. rewrite locked_refused by done.
      intros [= <-]. by left. }
  assert (Q : queue (entered w) = queue w).
  { unfold entered. by destruct (variant w). }
  destruct (current_data_cases (entered w))
    as [(e' & Hs & He)|[(Hc & data & Hd & He)|(Hc & m & Hm & He)]].
  - unfold batchWrite. erewrite locked_granted; [|done|].
    2:{ unfold bind at 1. by rewrite He. }
    intros [= <-]. by left.
  - destruct (maps (entered w) !! data) as [m|] eqn:Hm.
    + rewrite (batchWrite_run w _ data m) by done. simpl.
      destruct (_flushDataIfNeeded _ _) as [[[]|e'] w'] eqn:F; [done|].
      intros [= <-]. apply _flushDataIfNeeded_throws in F.
      rewrite <- Q. unfold stored in F. by destruct (useCache (entered w)).
    + unfold batchWrite. destruct ops as [|op ops].
      * destruct (_flushDataIfNeeded data
                    (if useCache (entered w)
                     then with_dataCache (Some data) (entered w)
                     else entered w)) as [r w'] eqn:F.
        erewrite locked_granted; [|done|].
        2:{ unfold bind at 1. rewrite He. unfold bind at 1. simpl.
            unfold keep_in_cache. unfold_monad.
            destruct (useCache (entered w)); exact F. }
        simpl. intros ->. apply _flushDataIfNeeded_throws in F.
        rewrite <- Q. by destruct (useCache (entered w)).
      * erewrite locked_granted; [|done|].
        2:{ unfold bind at 1. rewrite He. unfold bind at 1.
            by rewrite for_each_update_nowhere. }
        intros [= <-]. by left.
  - assert (Hl : maps (with_maps (maps (entered w) ++ [m]) (entered w))
                   !! length (maps (entered w)) = Some m).
    { simpl. rewrite lookup_app_r by done. by rewrite Nat.sub_diag. }
    rewrite (batchWrite_run w _ _ m) by done. simpl.
    destruct (_flushDataIfNeeded _ _) as [[[]|e'] w'] eqn:F; [done|].
    intros [= <-]. apply _flushDataIfNeeded_throws in F.
    rewrite <- Q. unfold stored in F. simpl in F.
    by destruct (useCache (entered w)).
Qed.

Lemma apply_operation_unknown (op : operation) (m : jsmap) :
  action_is "create" (op_action op) = false ->
  action_is "update" (op_action op) = false ->
  action_is "delete" (op_action op) = false ->
  apply_operation op m = m.
Proof. unfold apply_operation. by intros -> -> ->. Qed.

(** What [batchWrite] does once it holds the lock and the Dataset. *)
Lemma batchWrite_effect (w w1 : world) (ops : list operation)
    (data : addr) (m : jsmap) :
  lock_granted w = true ->
  current_data (entered w) = (Return data, w1) ->
  maps w1 !! data = Some m ->
  let w' := (batchWrite ops w).2 in
  maps w' !! data = Some (apply_operations ops m) /\
  flushes (trace w') = flushes (trace w) ++ [data] /\
  (length (writes (trace w')) <= length (writes (trace w)) + 1)%nat.
Proof.
  intros Hg Hd Hm. simpl.
  rewrite (batchWrite_run w w1 data m) by done. simpl.
  set (s := stored data (apply_operations ops m) w1).
  destruct (_flushDataIfNeeded_frame data s) as (_ & Hmaps & _ & _ & _).
  destruct (flushes_after_flush data s) as (Hf & Hw).
  pose proof (leave_entered_fields _ _ _ Hd) as (Ht & _).
  assert (Hs : trace s = trace w).
  { rewrite <- Ht. unfold s, stored. by destruct (useCache w1). }
  rewrite leave_maps, leave_trace, Hmaps, Hf, <- Hs.
  split; [by eapply stored_lookup|]. done.
Qed.



(** C10.  [batchWrite] validates nothing: it never fails with one of the
    errors [create] raises; whatever key and value an operation carries
    are put into the Dataset as they are; an operation whose action is
    neither create, update nor delete changes nothing. *)
Theorem batchWrite_unvalidated (w : world) (ops : list operation) :
  (forall e, queue w = Some e -> system_error e = true) ->
  (forall message, (batchWrite ops w).1 <> Throw (Error message)) /\
  (lock_granted w = true ->
   forall data w1 m,
     current_data (entered w) = (Return data, w1) ->
     maps w1 !! data = Some m ->
     maps (batchWrite ops w).2 !! data = Some (apply_operations ops m)) /\
  (forall k v m0,
     map_get k (apply_operation (Operation k v (JStr "create")) m0) = v /\
     map_get k (apply_operation (Operation k v (JStr "update")) m0) = v) /\
  (forall op m0,
     action_is "create" (op_action op) = false ->
     action_is "update" (op_action op) = false ->
     action_is "delete" (op_action op) = false ->
     apply_operation op m0 = m0).
Proof.
  intros Hq. split; [|split; [|split]].
  - intros message H. apply batchWrite_throws in H as [H|H]; [done|].
    by apply Hq in H.
  - intros Hg data w1 m Hd Hm.
    by destruct (batchWrite_effect w w1 ops data m Hg Hd Hm) as (? & _).
  - intros k v m0. split; apply map_get_set.
  - apply apply_operation_unknown.
Qed.

Lemma batchWrite_unvalidated_witness :
  let w := fresh WithQueue (Options None (Some 50)) in
  let ops := [Operation (JNum 7) (JBigInt 10) (JStr "create");
              Operation (JStr "x") JNull (JStr "rename")] in
  (forall message, (batchWrite ops w).1 <> Throw (Error message)) /\
  cached (batchWrite ops w).2 = Some [(JNum 7, JBigInt 10)].
Proof.
  intros w ops.
  assert (Hq : forall e, queue w = Some e -> system_error e = true).
  { intros e H. discriminate H. }
  pose proof (batchWrite_unvalidated w ops Hq) as (H1 & H2 & _).
  split; [exact H1|].
  exact (H2 eq_refl 1%nat w [] eq_refl eq_refl).
Defined.

(** ** Reading *)

Lemma read_cached (w : world) (key : jsval) (m : jsmap) :
  useCache w = true ->
  cached w = Some m ->
  is_string key = true ->
  read key w = (Return (js_or (map_get key m) JNull), w).
Proof.
  intros Hc Hm Hk. unfold cached in Hm.
  destruct (dataCache w) as [data|] eqn:Hd; [|discriminate]. simpl in Hm.
  unfold read, current_data. unfold_monad.
  rewrite Hk. simpl. rewrite Hc. rewrite Hd. by rewrite Hm.
Qed.

(** What [read] gives back right after a [create] that returned, cache
    on: the value when it is truthy, [null] otherwise. *)
Lemma read_after_create (w w' : world) (key value : jsval) (overwrite : bool) :
  useCache w = true ->
  create key value overwrite w = (Return tt, w') ->
  read key w' = (Return (js_or value JNull), w').
Proof.
  intros Hc H.
  destruct (is_string key) eqn:Hk.
  2:{ unfold create in H. by rewrite Hk in H. }
  destruct (_isValidJson value) eqn:Hv.
  2:{ unfold create in H. by rewrite Hk, Hv in H. }
  destruct (lock_granted w) eqn:Hg.
  2:{ unfold create in H. rewrite Hk, Hv in H. simpl in H.
      by rewrite locked_refused in H. }
  assert (Hce : useCache (entered w) = true).
  { unfold entered. by destruct (variant w). }
  destruct (current_data_cases (entered w))
    as [(e & _ & He)|[(_ & data & Hd & He)|(Hn & _)]]; [| |congruence].
  { assert (X : create key value overwrite w
                 = (Throw e, leave (variant w) (entered w))); [|congruence].
    unfold create. rewrite Hk, Hv. simpl. apply locked_granted; [done|].
    unfold bind at 1. by rewrite He. }
  destruct (maps (entered w) !! data) as [m|] eqn:Hm.
  2:{ assert (X : create key value overwrite w
                   = (Throw TypeError, leave (variant w) (entered w)));
        [|congruence].
      unfold create. rewrite Hk, Hv. simpl. apply locked_granted; [done|].
      unfold bind at 1. rewrite He. unfold bind at 1, deref at 1.
      by rewrite Hm. }
  rewrite (create_run w _ data m) in H by done.
  destruct (negb overwrite && map_has key m); [discriminate|].
  simpl in H. injection H as _ <-.
  set (s := stored data (map_set key value m) (entered w)).
  destruct (_flushDataIfNeeded_frame data s)
    as ((_ & Hu & _) & Hmaps & Hdc & _).
  assert (Hs : useCache s = true /\ dataCache s = Some data).
  { unfold s, stored. by rewrite Hce. }
  destruct Hs as [Hsu Hsd].
  rewrite (read_cached _ key (map_set key value m)).
  - by rewrite map_get_set.
  - destruct (variant w); simpl; congruence.
  - unfold cached. rewrite leave_dataCache, leave_maps, Hdc, Hsd, Hmaps.
    simpl. by eapply stored_lookup.
  - done.
Qed.

(** What [read] gives back right after a [delete] that returned, cache
    on: [null]. *)
Lemma read_after_delete (w w' : world) (key : jsval) (m : jsmap) :
  useCache w = true ->
  cached w = Some m ->
  keys_distinct m = true ->
  delete key w = (Return tt, w') ->
  read key w' = (Return JNull, w').
Proof.
  intros Hc Hm Hk H.
  destruct (is_string key) eqn:Hs.
  2:{ unfold delete in H. by rewrite Hs in H. }
  destruct (lock_granted w) eqn:Hg.
  2:{ unfold delete in H. rewrite Hs in H. simpl in H.
      by rewrite locked_refused in H. }
  assert (Hce : useCache (entered w) = true /\ cached (entered w) = Some m).
  { unfold entered, cached. by destruct (variant w). }
  destruct Hce as [Hce Hme]. unfold cached in Hme.
  destruct (dataCache (entered w)) as [data|] eqn:Hd; [|discriminate].
  simpl in Hme.
  assert (Hcur : current_data (entered w) = (Return data, entered w)).
  { unfold current_data. unfold_monad. by rewrite Hce, Hd. }
  rewrite (delete_run w _ data m) in H by done.
  simpl in H. injection H as _ <-.
  set (s := stored data (map_delete key m) (entered w)).
  destruct (_flushDataIfNeeded_frame data s)
    as ((_ & Hu & _) & Hmaps & Hdc & _).
  assert (Hs' : useCache s = true /\ dataCache s = Some data).
  { unfold s, stored. by rewrite Hce. }
  destruct Hs' as [Hsu Hsd].
  rewrite (read_cached _ key (map_delete key m)).
  - rewrite map_has_get_absent; [done|]. by apply map_has_delete.
  - destruct (variant w); simpl; congruence.
  - unfold cached. rewrite leave_dataCache, leave_maps, Hdc, Hsd, Hmaps.
    simpl. by eapply stored_lookup.
  - done.
Qed.

(** C1, at the inputs where the code departs from it.  [create] accepts
    the values 0, false and the empty string, keeps them in the Dataset,
    and the [read] that follows answers [null]: [data.get(key) || null]
    takes every falsy value for a missing one.  And with the cache off, a
    [delete] of the last key writes nothing (the flush decision skips an
    empty Dataset), so the [read] that follows still finds the value in
    the file. *)
Theorem read_after_create_falsy (b : build) :
  let w := fresh b default_options in
  let u := opened b (Options (Some false) None)
                  (Doc (json_object [("k", json_number 1)])) in
  Forall (fun v =>
            _isValidJson v = true /\
            (create (JStr "k") v false w).1 = Return tt /\
            cached (create (JStr "k") v false w).2 = Some [(JStr "k", v)] /\
            (read (JStr "k") (create (JStr "k") v false w).2).1
              = Return JNull /\
            (read (JStr "k") (update (JStr "k") v w).2).1 = Return JNull)
         [JNum 0; JBool false; JStr ""] /\
  (delete (JStr "k") u).1 = Return tt /\
  (read (JStr "k") (delete (JStr "k") u).2).1 = Return (JNum 1).
Proof. destruct b; repeat constructor. Qed.

(** C4, at the input where the lockfile build departs from it.  Over a
    file that is not JSON, [_readFromFile] of the lockfile build lets the
    SyntaxError of [JSON.parse] through to [read] and [readPage]; the
    watcher reports it.  The queue build catches it and answers from an
    empty Map. *)
Theorem malformed_file_propagates :
  let off := Options (Some false) None in
  let w := opened WithLockfile off Garbage in
  let q := opened WithQueue off Garbage in
  _readFromFile w = (Throw SyntaxError, w) /\
  (read (JStr "k") w).1 = Throw SyntaxError /\
  (readPage None None w).1 = Throw SyntaxError /\
  (delete (JStr "k") w).1 = Throw SyntaxError /\
  trace (run [ExternalWrite Garbage; FileChanged]
             (fresh WithLockfile default_options))
    = [Wrote (Doc (json_object [])); EmitError SyntaxError] /\
  (_readFromFile q).1 = Return 0%nat /\
  maps (_readFromFile q).2 = [[]] /\
  (read (JStr "k") q).1 = Return JNull.
Proof. repeat split. Qed.

(** In the queue build no text makes [_readFromFile] fail. *)
Lemma _readFromFile_queue_build (w : world) (t : text) :
  variant w = WithQueue ->
  file w = Some t ->
  exists m, _readFromFile w =
              (Return (length (maps w)), with_maps (maps w ++ [m]) w) /\
            (JSON_parse t = Throw SyntaxError -> m = []).
Proof.
  destruct w as [b c d dc ws q h f wr sl hd wt ts tr]. simpl.
  intros -> ->. unfold _readFromFile, decode. unfold_monad. simpl.
  destruct (JSON_parse t) as [v|e]; simpl.
  - destruct (Object_entries v) as [es|e]; simpl.
    + exists (Map_of es). split; [done|discriminate].
    + by exists [].
  - by exists [].
Qed.

(** ** The change watcher *)

Lemma _readFromFile_throws (w w1 : world) (e : error) :
  _readFromFile w = (Throw e, w1) -> w1 = w.
Proof.
  destruct (_readFromFile_cases w) as [(e' & _ & ->)|(m & _ & ->)];
    congruence.
Qed.

(** C9.  When the watcher's read of the file fails, the listener emits an
    error event and nothing else happens: the cache pointer and every Map
    stay as they were, so with the cache on a [read] answers as it did
    before. *)
Theorem watcher_failure_keeps_cache (w w1 : world) (e : error) :
  _readFromFile w = (Throw e, w1) ->
  let w' := (watch_callback w).2 in
  trace w' = trace w ++ [EmitError e] /\
  dataCache w' = dataCache w /\
  maps w' = maps w /\
  cached w' = cached w /\
  (useCache w = true -> forall key, (read key w').1 = (read key w).1).
Proof.
  intros H. pose proof (_readFromFile_throws _ _ _ H) as ->.
  assert (Hw : watch_callback w = (Return tt, add_event (EmitError e) w)).
  { unfold watch_callback, try_catch, bind at 1. rewrite H. reflexivity. }
  simpl. rewrite Hw. simpl.
  repeat split; try done.
  intros Hc key. unfold read, current_data, add_event. unfold_monad.
  destruct w as [b c d dc ws q h f wr sl hd wt ts tr]. simpl in *. subst c.
  destruct (is_string key); simpl; [|done].
  destruct dc as [data|]; simpl; [|done].
  by destruct (h !! data).
Qed.

Lemma watcher_failure_keeps_cache_witness :
  let w := run [Create (JStr "k") (JNum 1) false; ExternalWrite Garbage]
               (fresh WithLockfile default_options) in
  trace (file_changed w) = trace w ++ [EmitError SyntaxError] /\
  cached (file_changed w) = Some [(JStr "k", JNum 1)] /\
  (read (JStr "k") (file_changed w)).1 = Return (JNum 1).
Proof.
  intros w.
  pose proof (watcher_failure_keeps_cache w w SyntaxError eq_refl)
    as (H1 & _ & _ & H2 & H3).
  split; [exact H1|]. split; [exact H2|].
  exact (H3 eq_refl (JStr "k")).
Defined.

(** ** Pages *)




Lemma slice_map {A B} (f : A -> B) (l : list A) (a b : Z) :
  slice (map f l) a b = map f (slice l a b).
Proof.
  unfold slice. rewrite length_map.
  by rewrite <- firstn_map, <- skipn_map.
Qed.

Lemma map_has_app (k : jsval) (m1 m2 : jsmap) :
  map_has k (m1 ++ m2) = map_has k m1 || map_has k m2.
Proof.
  induction m1 as [|[k' v'] m1 IH]; simpl; [done|].
  unfold map_has in *. fold map_has in *. by rewrite IH, orb_assoc.
Qed.

Lemma map_set_absent (k v : jsval) (m : jsmap) :
  map_has k m = false -> map_set k v m = m ++ [(k, v)].
Proof.
  induction m as [|[k' v'] m IH]; [done|].
  unfold map_has, map_set. fold map_has. fold map_set.
  destruct (SameValueZero k' k); [discriminate|]. simpl.
  intros H. by rewrite IH.
Qed.

Lemma keys_distinct_app_head (k v : jsval) (acc rest : jsmap) :
  keys_distinct (acc ++ (k, v) :: rest) = true -> map_has k acc = false.
Proof.
  induction acc as [|[k' v'] acc IH]; [done|].
  simpl. unfold keys_distinct, map_has. fold keys_distinct. fold map_has.
  intros [Hk Hd]%andb_true_iff. apply negb_true_iff in Hk.
  rewrite map_has_app in Hk. apply orb_false_iff in Hk as [_ Hk].
  unfold map_has in Hk. fold map_has in Hk.
  apply orb_false_iff in Hk as [Hk _].
  rewrite IH by done. rewrite orb_false_r.
  apply SameValueZero_neq. apply SameValueZero_neq in Hk. congruence.
Qed.

Lemma map_has_member (k v : jsval) (m : jsmap) :
  (k, v) ∈ m -> map_has k m = true.
Proof.
  induction m as [|[k' v'] m IH]; [by intros ?%elem_of_nil|].
  unfold map_has. fold map_has.
  intros [[= <- <-]|H]%elem_of_cons.
  - by rewrite SameValueZero_refl.
  - rewrite IH by done. apply orb_true_r.
Qed.

Lemma map_get_member (k v : jsval) (m : jsmap) :
  keys_distinct m = true -> (k, v) ∈ m -> map_get k m = v.
Proof.
  induction m as [|[k' v'] m IH]; [by intros _ ?%elem_of_nil|].
  unfold keys_distinct, map_get. fold keys_distinct. fold map_get.
  intros [Hk Hd]%andb_true_iff [[= <- <-]|H]%elem_of_cons.
  - by rewrite SameValueZero_refl.
  - destruct (SameValueZero k' k) eqn:E; [|by apply IH].
    apply SameValueZero_eq in E as ->.
    apply map_has_member in H. by rewrite H in Hk.
Qed.




(** The Map [readPage] fills key by key is the slice of the entries. *)
Lemma page_fold (m sub acc : jsmap) :
  (forall k v, (k, v) ∈ sub -> map_get k m = v) ->
  keys_distinct (acc ++ sub) = true ->
  fold_left (fun page key => map_set key (map_get key m) page)
            (map fst sub) acc = acc ++ sub.
Proof.
  revert acc. induction sub as [|[k v] sub IH]; intros acc Hget Hd; simpl.
  - by rewrite app_nil_r.
  - rewrite (Hget k v) by left.
    rewrite map_set_absent by (by eapply keys_distinct_app_head).
    rewrite IH.
    + by rewrite <- app_assoc.
    + intros k0 v0 H. apply Hget. by right.
    + by rewrite <- app_assoc.
Qed.

Lemma props_has_as_props (k : jsval) (m : jsmap) :
  is_string k = true ->
  forallb plain_key m = true ->
  map_has k m = false ->
  props_has (ToString k) (as_props m) = false.
Proof.
  intros Hk. induction m as [|[k' v'] m IH]; [done|].
  simpl. unfold map_has. fold map_has.
  intros [Hp Hm]%andb_true_iff [Hs Hh]%orb_false_iff.
  rewrite IH by done. rewrite orb_false_r.
  unfold plain_key in Hp. apply andb_true_iff in Hp as [Hp _]. simpl in Hp.
  destruct k; try discriminate. destruct k'; try discriminate.
  simpl in *. by rewrite String.eqb_sym.
Qed.

Lemma fromEntries_fold (es acc : jsmap) :
  forallb plain_key (acc ++ es) = true ->
  keys_distinct (acc ++ es) = true ->
  fold_left (fun ps kv => define_property (ToString kv.1) kv.2 ps)
            es (as_props acc) = as_props (acc ++ es).
Proof.
  revert acc. induction es as [|[k v] es IH]; intros acc Hp Hd; simpl.
  - by rewrite app_nil_r.
  - assert (Hkv : plain_key (k, v) = true).
    { rewrite forallb_app in Hp. apply andb_true_iff in Hp as [_ Hp].
      simpl in Hp. by apply andb_true_iff in Hp as [Hp _]. }
    assert (Hacc : forallb plain_key acc = true).
    { rewrite forallb_app in Hp. by apply andb_true_iff in Hp as [Hp _]. }
    unfold plain_key in Hkv. apply andb_true_iff in Hkv as [Hs Hi].
    apply bool_decide_eq_true in Hi. simpl in Hs, Hi.
    unfold define_property.
    rewrite props_has_as_props; [|done|done|by eapply keys_distinct_app_head].
    rewrite Hi.
    replace (as_props acc ++ [(ToString k, v)]) with (as_props (acc ++ [(k, v)])).
    2:{ unfold as_props. by rewrite map_app. }
    rewrite IH; by rewrite <- app_assoc.
Qed.

Lemma Object_fromEntries_plain (es : jsmap) :
  forallb plain_key es = true ->
  keys_distinct es = true ->
  Object_fromEntries es = JObj (as_props es).
Proof.
  intros Hp Hd. unfold Object_fromEntries. f_equal.
  by apply (fromEntries_fold es []).
Qed.





(** ** Mutations as steps *)

Lemma leave_entered (w : world) : leave (variant w) (entered w) = w.
Proof. by destruct w as [[] c d dc ws q h f wr sl hd wt ts tr]. Qed.

Lemma leave_allocated (w : world) (h : list jsmap) :
  leave (variant w) (with_maps h (entered w)) = with_maps h w.
Proof. by destruct w as [[] c d dc ws q h' f wr sl hd wt ts tr]. Qed.

Lemma with_maps_same (w : world) : with_maps (maps w ++ []) w = w.
Proof. destruct w. simpl. by rewrite app_nil_r. Qed.

Lemma shape_stay (w : world) : shape w w.
Proof. left. exists []. split; [done|]. by rewrite with_maps_same. Qed.

Lemma current_data_valid (w w1 : world) (data : addr) :
  cache_valid w = true ->
  current_data (entered w) = (Return data, w1) ->
  exists m ms, maps w1 !! data = Some m /\
               Forall (fun m => keys_distinct m = true) ms /\
               w1 = with_maps (maps w ++ ms) (entered w).
Proof.
  intros Hv H.
  assert (E : maps (entered w) = maps w /\ dataCache (entered w) = dataCache w).
  { unfold entered. by destruct (variant w). }
  destruct E as [Em Ed].
  destruct (current_data_frame _ _ _ H)
    as [(_ & -> & Hd)|(_ & -> & m & Hm & ->)].
  - unfold cache_valid in Hv. rewrite <- Ed, Hd in Hv.
    apply bool_decide_eq_true in Hv. rewrite <- Em in Hv.
    apply lookup_lt_is_Some in Hv as [m Hm].
    exists m, []. split; [done|]. split; [done|].
    by rewrite <- Em, with_maps_same.
  - exists m, [m]. simpl. rewrite lookup_app_r by done.
    rewrite Nat.sub_diag. rewrite Em. repeat split; try done.
    by repeat constructor.
Qed.

Lemma locked_no_data {A} (k : addr -> M A) (w w1 : world) (e : error) :
  lock_granted w = true ->
  current_data (entered w) = (Throw e, w1) ->
  locked (data <- current_data;; k data) w = (Throw e, w).
Proof.
  intros Hg Hd.
  assert (w1 = entered w) as ->.
  { destruct (current_data_cases (entered w))
      as [(e' & _ & He)|[(_ & d & _ & He)|(_ & m & _ & He)]];
      rewrite He in Hd; congruence. }
  erewrite locked_granted; [|done|].
  2:{ unfold bind at 1. by rewrite Hd. }
  by rewrite leave_entered.
Qed.

Lemma keys_distinct_apply_operations (ops : list operation) (m : jsmap) :
  keys_distinct m = true -> keys_distinct (apply_operations ops m) = true.
Proof.
  revert m. induction ops as [|op ops IH]; intros m Hm; [done|].
  simpl. apply IH. unfold apply_operation.
  destruct (_ || _); [by apply keys_distinct_set|].
  destruct (action_is "delete" _); [by apply keys_distinct_delete|done].
Qed.

Lemma create_shape (key value : jsval) (overwrite : bool) (w : world) :
  cache_valid w = true -> shape w (create key value overwrite w).2.
Proof.
  intros Hv.
  destruct (is_string key) eqn:Hk.
  2:{ unfold create. rewrite Hk. apply shape_stay. }
  destruct (_isValidJson value) eqn:Hj.
  2:{ unfold create. rewrite Hk, Hj. apply shape_stay. }
  destruct (lock_granted w) eqn:Hg.
  2:{ unfold create. rewrite Hk, Hj. simpl.
      rewrite locked_refused by done. apply shape_stay. }
  destruct (current_data (entered w)) as [[data|e] w1] eqn:Hd.
  - destruct (current_data_valid _ _ _ Hv Hd) as (m & ms & Hm & Hms & Hw1).
    rewrite (create_run w w1 data m) by done.
    destruct (negb overwrite && map_has key m); simpl.
    + left. exists ms. split; [done|]. rewrite Hw1. apply leave_allocated.
    + right. exists data, w1, m, (map_set key value m).
      repeat split; try done; [apply keys_distinct_set | by exists ms].
  - unfold create. rewrite Hk, Hj. simpl.
    erewrite locked_no_data by done. apply shape_stay.
Qed.

Lemma delete_shape (key : jsval) (w : world) :
  cache_valid w = true -> shape w (delete key w).2.
Proof.
  intros Hv.
  destruct (is_string key) eqn:Hk.
  2:{ unfold delete. rewrite Hk. apply shape_stay. }
  destruct (lock_granted w) eqn:Hg.
  2:{ unfold delete. rewrite Hk. simpl.
      rewrite locked_refused by done. apply shape_stay. }
  destruct (current_data (entered w)) as [[data|e] w1] eqn:Hd.
  - destruct (current_data_valid _ _ _ Hv Hd) as (m & ms & Hm & Hms & Hw1).
    rewrite (delete_run w w1 data m) by done. simpl.
    right. exists data, w1, m, (map_delete key m).
    repeat split; try done; [apply keys_distinct_delete | by exists ms].
  - unfold delete. rewrite Hk. simpl.
    erewrite locked_no_data by done. apply shape_stay.
Qed.

Lemma batchWrite_shape (ops : list operation) (w : world) :
  cache_valid w = true -> shape w (batchWrite ops w).2.
Proof.
  intros Hv.
  destruct (lock_granted w) eqn:Hg.
  2:{ unfold batchWrite. rewrite locked_refused by done. apply shape_stay. }
  destruct (current_data (entered w)) as [[data|e] w1] eqn:Hd.
  - destruct (current_data_valid _ _ _ Hv Hd) as (m & ms & Hm & Hms & Hw1).
    rewrite (batchWrite_run w w1 data m) by done. simpl.
    right. exists data, w1, m, (apply_operations ops m).
    repeat split; try done;
      [apply keys_distinct_apply_operations | by exists ms].
  - unfold batchWrite.
    erewrite locked_no_data by done. apply shape_stay.
Qed.

Lemma mutation_shape (s : step) (w : world) :
  mutation s = true -> cache_valid w = true -> shape w (run_step s w).
Proof.
  destruct s; try discriminate; intros _ Hv; simpl.
  - by apply create_shape.
  - by apply create_shape.
  - by apply delete_shape.
  - by apply batchWrite_shape.
Qed.

Lemma stored_fields (data : addr) (m : jsmap) (w : world) :
  let s := stored data m w in
  trace s = trace w /\ file s = file w /\ timers s = timers w /\
  writeScheduled s = writeScheduled w /\ queue s = queue w /\
  held s = held w /\ delayedWrite s = delayedWrite w /\
  variant s = variant w /\ useCache s = useCache w /\
  writable s = writable w.
Proof. unfold stored. destruct (useCache w) eqn:E; simpl; by rewrite ?E. Qed.

(** ** The empty Dataset *)

(** C3, as amended.  A mutating operation whose flush decision is handed
    an empty Dataset writes nothing, leaves the file as it was and starts
    no timer.  (A timer started by an earlier mutation is out of its
    reach.) *)
Theorem empty_dataset_not_flushed (s : step) (w : world) (data : addr) :
  mutation s = true ->
  cache_valid w = true ->
  let w' := run_step s w in
  flushes (trace w') = flushes (trace w) ++ [data] ->
  maps w' !! data = Some [] ->
  file w' = file w /\
  writes (trace w') = writes (trace w) /\
  timers w' = timers w /\
  writeScheduled w' = writeScheduled w.
Proof.
  intros Hmut Hv w' Hf He. unfold w' in *. clear w'.
  destruct (mutation_shape s w Hmut Hv)
    as [(ms & _ & Hw)|(d & w1 & m & m' & Hd & Hl & Hw & _)]; rewrite Hw in *.
  - simpl in Hf. apply (f_equal length) in Hf.
    rewrite length_app in Hf. simpl in Hf. lia.
  - clear Hw. set (s0 := stored d m' w1) in *.
    pose proof (leave_entered_fields _ _ _ Hd)
      as (Ht & Hfile & Htm & Hws & _).
    destruct (stored_fields d m' w1) as (St & Sf & Stm & Sws & _).
    fold s0 in St, Sf, Stm, Sws.
    destruct (flushes_after_flush d s0) as (Hf' & _).
    destruct (_flushDataIfNeeded_frame d s0) as (_ & Hmaps & _).
    rewrite leave_trace, Hf', St, Ht in Hf.
    apply app_inj_tail in Hf as [_ ->].
    rewrite leave_maps, Hmaps in He.
    assert (Hs0 : maps s0 !! data = Some m') by by eapply stored_lookup.
    assert (m' = []) as -> by congruence.
    rewrite leave_file, leave_trace, leave_timers, leave_writeScheduled.
    rewrite (flush_empty data s0 Hs0). simpl.
    unfold writes. rewrite omap_app. simpl. rewrite app_nil_r.
    by rewrite St, Sf, Stm, Sws, Ht, Hfile, Htm, Hws.
Qed.

Lemma empty_dataset_not_flushed_witness :
  let w := run [Create (JStr "x") (JNum 1) false]
               (fresh WithQueue default_options) in
  let w' := run_step (Delete (JStr "x")) w in
  cached w' = Some [] /\
  file w' = Some (Doc (json_object [("x", json_number 1)])) /\
  writes (trace w') = writes (trace w).
Proof.
  intros w w'.
  pose proof (empty_dataset_not_flushed (Delete (JStr "x")) w 1%nat
                eq_refl eq_refl eq_refl eq_refl) as (H1 & H2 & _).
  split; [reflexivity|]. split; [exact H1 | exact H2].
Defined.

(** C3 as stated fails: with a delay, the timer started by an earlier
    mutation fires after a delete has emptied the Dataset, and writes the
    empty Dataset over the file. *)
Lemma pending_timer_writes_empty_dataset :
  let w := opened WithQueue (Options None (Some 50))
                  (Doc (json_object [("x", json_number 1)])) in
  let w1 := run [Update (JStr "x") (JNum 2); Delete (JStr "x")] w in
  let w2 := run_step TimerExpires w1 in
  cached w1 = Some [] /\
  file w1 = Some (Doc (json_object [("x", json_number 1)])) /\
  writes (trace w1) = [] /\
  cached w2 = Some [] /\
  writes (trace w2) = [Doc (json_object [])] /\
  file w2 = Some (Doc (json_object [])).
Proof. repeat split. Qed.

(** ** The delayed flush *)

Lemma pending_cache_valid (data : addr) (w : world) :
  pending data w -> cache_valid w = true.
Proof.
  intros (_ & _ & _ & _ & Hd & Hl). unfold cache_valid. rewrite Hd.
  by apply bool_decide_eq_true.
Qed.

Lemma pending_mutation (s : step) (w : world) (data : addr) :
  mutation s = true ->
  pending data w ->
  pending data (run_step s w) /\ same_disk w (run_step s w).
Proof.
  intros Hmut Hp. pose proof (pending_cache_valid _ _ Hp) as Hv.
  destruct Hp as (Hc & Hdel & Hws & Htm & Hdc & Hl).
  destruct (mutation_shape s w Hmut Hv)
    as [(ms & _ & ->)|(d & w1 & m & m' & Hd & Hm & -> & _)].
  - unfold pending, same_disk. simpl. rewrite length_app.
    repeat split; try done. lia.
  - assert (Hce : useCache (entered w) = true /\
                  dataCache (entered w) = Some data).
    { unfold entered. by destruct (variant w). }
    destruct Hce as [Hce Hde].
    destruct (current_data_frame _ _ _ Hd)
      as [(_ & -> & Hd')|(Hn & _)]; [|congruence].
    assert (d = data) as -> by congruence.
    set (s0 := stored data m' (entered w)).
    assert (Hs0 : maps s0 !! data = Some m') by by eapply stored_lookup.
    destruct (stored_fields data m' (entered w))
      as (St & Sf & Stm & Sws & Sq & Sh & Sd & Sv & Sc & Swr).
    fold s0 in St, Sf, Stm, Sws, Sq, Sh, Sd, Sv, Sc, Swr.
    rewrite (flush_pending data s0 m' Hs0).
    2:{ rewrite Sd. unfold entered. by destruct (variant w). }
    2:{ rewrite Sws. unfold entered. by destruct (variant w). }
    simpl.
    assert (Hlen : length (maps s0) = length (maps w)).
    { unfold s0, stored. rewrite Hce. simpl. rewrite length_insert.
      unfold entered. by destruct (variant w). }
    assert (Hdc0 : dataCache s0 = Some data).
    { unfold s0, stored. by rewrite Hce. }
    unfold pending, same_disk, writes.
    destruct (variant w) eqn:Hb; simpl; rewrite omap_app; simpl;
      rewrite app_nil_r, St, ?Sf, ?Stm, ?Sws, ?Sq, ?Sh, ?Sd, ?Sv, ?Sc, ?Swr,
        ?Hlen, ?Hdc0;
      unfold entered; rewrite Hb; simpl; repeat split; done.
Qed.

Lemma pending_run (steps : list step) (w : world) (data : addr) :
  forallb mutation steps = true ->
  pending data w ->
  pending data (run steps w) /\ same_disk w (run steps w).
Proof.
  revert w. induction steps as [|s steps IH]; intros w Hs Hp; simpl.
  - split; [done | by repeat split].
  - apply andb_true_iff in Hs as [Hs Hss].
    destruct (pending_mutation s w data Hs Hp) as (Hp1 & D1).
    destruct (IH _ Hss Hp1) as (Hp2 & D2). split; [done|].
    unfold same_disk in *. fold (run steps (run_step s w)).
    destruct D1 as (? & ? & ? & ? & ? & ?), D2 as (? & ? & ? & ? & ? & ?).
    repeat split; congruence.
Qed.

(** C2, as amended.  With the cache on and a flush pending on the cached
    Dataset, the mutations that follow (with no watcher refresh among
    them) write nothing and start no second timer; when the timer fires
    and the write goes through, it is the only write, and it holds the
    encoding of the Dataset as it is then, with all those mutations in
    it. *)
Theorem delayed_flush_writes_latest (w : world) (data : addr)
    (steps : list step) (m : jsmap) (j : json) :
  pending data w ->
  forallb mutation steps = true ->
  writable w = true -> queue w = None -> held w = 0%nat ->
  let w' := run steps w in
  cached w' = Some m ->
  JSON_stringify (Object_fromEntries m) = Return (Some j) ->
  writes (trace w') = writes (trace w) /\
  timers w' = [data] /\
  let w'' := run_step TimerExpires w' in
  file w'' = Some (Doc j) /\
  writes (trace w'') = writes (trace w) ++ [Doc j] /\
  timers w'' = [] /\ writeScheduled w'' = false /\
  cached w'' = Some m.
Proof.
  intros Hp Hs Hwr Hq Hh w' Hm Hj.
  destruct (pending_run steps w data Hs Hp) as (Hp' & Hf & Hw & Hq' & Hh' & Hwr' & _).
  fold w' in Hp', Hf, Hw, Hq', Hh', Hwr'.
  destruct Hp' as (_ & _ & _ & Htm & Hdc & _).
  split; [done|]. split; [done|].
  unfold cached in Hm. rewrite Hdc in Hm. simpl in Hm.
  assert (Hfire : run_step TimerExpires w' =
            with_writeScheduled false
              (with_trace (trace w' ++ [Wrote (Doc j)])
                 (with_file (Some (Doc j)) (with_timers [] w')))).
  { simpl. unfold fire_timer. rewrite Htm. unfold timer_callback, bind.
    rewrite (_writeToFile_ok data (with_timers [] w') m j);
      [done|done|done|simpl; congruence|simpl; congruence|simpl; congruence]. }
  cbv zeta. rewrite Hfire. simpl.
  unfold writes at 1. rewrite omap_app. simpl.
  fold (writes (trace w')). rewrite Hw.
  repeat split. unfold cached. simpl. by rewrite Hdc.
Qed.

Lemma delayed_flush_writes_latest_witness :
  let w := run [Create (JStr "a") (JNum 1) false]
               (fresh WithQueue (Options None (Some 50))) in
  let w' := run [Create (JStr "b") (JNum 2) false] w in
  let both := json_object [("a", json_number 1); ("b", json_number 2)] in
  writes (trace w') = [Doc (json_object [])] /\
  timers w' = [1%nat] /\
  file (run_step TimerExpires w') = Some (Doc both) /\
  writes (trace (run_step TimerExpires w'))
    = [Doc (json_object []); Doc both].
Proof.
  intros w w' both.
  assert (Hp : pending 1%nat w).
  { unfold pending. repeat split; try reflexivity. simpl. lia. }
  pose proof (delayed_flush_writes_latest w 1%nat
                [Create (JStr "b") (JNum 2) false]
                [(JStr "a", JNum 1); (JStr "b", JNum 2)] both
                Hp eq_refl eq_refl eq_refl eq_refl eq_refl eq_refl)
    as (H1 & H2 & H3 & H4 & _).
  split; [exact H1|]. split; [exact H2|]. split; [exact H3 | exact H4].
Defined.

(** C2 as stated fails with the cache off: every operation reads its own
    Map from the file, the timer keeps the Map of the first one, and the
    second create is neither written nor scheduled. *)
Lemma delayed_flush_without_cache_loses_mutation :
  let w := opened WithQueue (Options (Some false) (Some 50))
                  (Doc (json_object [])) in
  let w1 := run_step (Create (JStr "a") (JNum 1) false) w in
  let w2 := run_step (Create (JStr "b") (JNum 2) false) w1 in
  let w3 := run_step TimerExpires w2 in
  0 < delayedWrite w /\
  (create (JStr "a") (JNum 1) false w).1 = Return tt /\
  (create (JStr "b") (JNum 2) false w1).1 = Return tt /\
  timers w2 = [0%nat] /\
  maps w2 = [[(JStr "a", JNum 1)]; [(JStr "b", JNum 2)]] /\
  writes (trace w3) = [Doc (json_object [("a", json_number 1)])] /\
  file w3 = Some (Doc (json_object [("a", json_number 1)])) /\
  timers w3 = [] /\ writeScheduled w3 = false.
Proof. repeat split. Qed.

(** ** The pending marker *)

(** C8, at the input where the code departs from it.  The timer callback
    clears [writeScheduled] only after the write: when the write fails
    (here on a BigInt that [batchWrite] let in, or on a file that cannot
    be written), the marker stays set with no timer left, and no later
    mutation is ever flushed. *)
Theorem marker_stuck_after_failed_write (b : build) :
  let w := fresh b (Options None (Some 50)) in
  let w1 :=
    run_step (BatchWrite [Operation (JStr "a") (JBigInt 10) (JStr "create")])
             w in
  let w2 := run_step TimerExpires w1 in
  let w3 := run [Create (JStr "b") (JNum 1) false; TimerExpires] w2 in
  let r := new_SimpleDB b (Options None (Some 50))
                        (Some (Doc (json_object []))) false false in
  let r2 := run [Create (JStr "a") (JNum 1) false; TimerExpires] r in
  (writeScheduled w1 = true /\ timers w1 = [1%nat]) /\
  (writeScheduled w2 = true /\ timers w2 = []) /\
  (cached w3 = Some [(JStr "a", JBigInt 10); (JStr "b", JNum 1)] /\
   timers w3 = [] /\ writes (trace w3) = writes (trace w)) /\
  (writeScheduled r2 = true /\ timers r2 = [] /\ writes (trace r2) = []).
Proof. destruct b; repeat split. Qed.

Lemma cache_valid_stored (data : addr) (m m' : jsmap) (w : world) :
  cache_valid w = true ->
  maps w !! data = Some m ->
  cache_valid (stored data m' w) = true.
Proof.
  intros Hv Hm. unfold cache_valid, stored in *.
  apply lookup_lt_Some in Hm.
  destruct (useCache w); simpl; rewrite length_insert.
  - by apply bool_decide_eq_true.
  - done.
Qed.

Lemma cache_valid_grow (w : world) (ms : list jsmap) :
  cache_valid w = true -> cache_valid (with_maps (maps w ++ ms) w) = true.
Proof.
  unfold cache_valid. simpl. destruct (dataCache w); [|done].
  intros Hv%bool_decide_eq_true. apply bool_decide_eq_true.
  rewrite length_app. lia.
Qed.

Lemma sound_grow (w : world) (ms : list jsmap) :
  Forall (fun m => keys_distinct m = true) ms ->
  sound w -> sound (with_maps (maps w ++ ms) w).
Proof.
  intros Hms (Hv & Hk & Hq & Ht).
  split; [by apply cache_valid_grow|].
  split; [by apply Forall_app|]. done.
Qed.

Lemma sound_held (n : nat) (w : world) : sound w -> sound (with_held n w).
Proof. done. Qed.

Lemma sound_leave (b : build) (w : world) : sound w -> sound (leave b w).
Proof. by destruct b. Qed.

Lemma sound_entered (w : world) : sound w -> sound (entered w).
Proof. unfold entered. by destruct (variant w). Qed.

Lemma sound_stored (data : addr) (m m' : jsmap) (w : world) :
  sound w ->
  maps w !! data = Some m ->
  (keys_distinct m = true -> keys_distinct m' = true) ->
  sound (stored data m' w).
Proof.
  intros (Hv & Hk & Hq & Ht) Hm Hkm.
  destruct (stored_fields data m' w) as (_ & _ & Stm & Sws & Sq & _).
  split; [by eapply cache_valid_stored|].
  split; [|by rewrite Stm, Sws, Sq].
  unfold stored. destruct (useCache w); simpl;
    apply Forall_insert; try done; apply Hkm;
    by eapply (proj1 (Forall_lookup _ _) Hk).
Qed.

Lemma sound_writeToFile (data : addr) (w : world) :
  sound w -> sound (_writeToFile data w).2.
Proof.
  intros (Hv & Hk & Hq & Ht).
  destruct (_writeToFile_cases data w)
    as [(e & w' & -> & [->| ->] & He)|(m' & j & _ & _ & ->)]; simpl;
    try done.
  repeat split; try done. intros e' [= <-].
  destruct He as [He|He]; [done|]. by apply Hq.
Qed.

Lemma sound_flush (data : addr) (w : world) :
  sound w -> sound (_flushDataIfNeeded data w).2.
Proof.
  intros Hs. pose proof Hs as (Hv & Hk & Hq & Ht).
  destruct (_flushDataIfNeeded_cases data w)
    as [[_ ->]|(m & _ & [[_ ->]|[(_ & _ & Hws & ->)|(_ & _ & ->)]])]; simpl;
    try done.
  - repeat split; try done. right. exists data. split; [|done].
    destruct Ht as [->|(d & _ & ?)]; [done|congruence].
  - by apply sound_writeToFile.
Qed.

(** A reading operation changes nothing, except that with the cache off
    it leaves behind the Map it read. *)
Lemma reading_allocates (w : world) (k : addr -> M jsval) :
  (forall data w1, (k data w1).2 = w1) ->
  exists ms, Forall (fun m => keys_distinct m = true) ms /\
             ((data <- current_data;; k data) w).2
               = with_maps (maps w ++ ms) w.
Proof.
  intros Hk. unfold bind.
  destruct (current_data_cases w)
    as [(e & _ & ->)|[(_ & d & _ & ->)|(_ & m & Hm & ->)]].
  - exists []. split; [done|]. by rewrite with_maps_same.
  - exists []. split; [done|]. by rewrite Hk, with_maps_same.
  - exists [m]. split; [by repeat constructor|]. by rewrite Hk.
Qed.

Lemma read_allocates (key : jsval) (w : world) :
  exists ms, Forall (fun m => keys_distinct m = true) ms /\
             (read key w).2 = with_maps (maps w ++ ms) w.
Proof.
  unfold read. destruct (is_string key); simpl.
  - apply reading_allocates. intros data w1. unfold bind, deref, ret.
    by destruct (maps w1 !! data).
  - exists []. split; [done|]. by rewrite with_maps_same.
Qed.

Lemma readPage_allocates (pn ps : option Z) (w : world) :
  exists ms, Forall (fun m => keys_distinct m = true) ms /\
             (readPage pn ps w).2 = with_maps (maps w ++ ms) w.
Proof.
  unfold readPage. apply reading_allocates.
  intros data w1. unfold bind, deref, ret. by destruct (maps w1 !! data).
Qed.

Lemma sound_step (s : step) (w : world) : sound w -> sound (run_step s w).
Proof.
  intros Hs. pose proof Hs as (Hv & Hk & Hq & Ht).
  destruct (mutation s) eqn:Hmut.
  - destruct (mutation_shape s w Hmut Hv)
      as [(ms & Hms & ->)
         |(d & w1 & m & m' & Hd & Hm & -> & Hkm & ms & Hms & Hw1)].
    + by apply sound_grow.
    + apply sound_leave, sound_flush. eapply sound_stored; [|done|done].
      rewrite Hw1.
      assert (E : maps w = maps (entered w)).
      { unfold entered. by destruct (variant w). }
      rewrite E. by apply sound_grow, sound_entered.
  - destruct s; try discriminate; simpl.
    + destruct (read_allocates key w) as (ms & Hms & ->). by apply sound_grow.
    + destruct (readPage_allocates pageNumber pageSize w) as (ms & Hms & ->).
      by apply sound_grow.
    + unfold fire_timer. destruct Ht as [E|(d & E & Hw)]; rewrite E; [done|].
      assert (S0 : sound (with_timers [] w)).
      { repeat split; try done. by left. }
      pose proof (sound_writeToFile d _ S0) as S1.
      unfold timer_callback, bind.
      assert (T : timers (_writeToFile d (with_timers [] w)).2 = []).
      { destruct (_writeToFile_cases d (with_timers [] w))
          as [(e & w' & -> & [->| ->] & _)|(m' & j & _ & _ & ->)]; done. }
      destruct (_writeToFile d (with_timers [] w)) as [[[]|e] w'];
        simpl in *; destruct S1 as (? & ? & ? & ?);
        repeat split; try done; by left.
    + unfold file_changed. destruct (watching w); [|done].
      unfold watch_callback, try_catch, bind at 1.
      destruct (_readFromFile_cases w) as [(e & _ & ->)|(m & Hm & ->)].
      * done.
      * repeat split; simpl; try done.
        -- unfold cache_valid. simpl. apply bool_decide_eq_true.
           rewrite length_app. simpl. lia.
        -- apply Forall_app. split; [done|]. by repeat constructor.
    + done.
Qed.

Lemma held_step (s : step) (w : world) :
  cache_valid w = true -> held (run_step s w) = held w.
Proof.
  intros Hv. destruct (mutation s) eqn:Hmut.
  - destruct (mutation_shape s w Hmut Hv)
      as [(ms & _ & ->)|(d & w1 & m & m' & Hd & _ & -> & _)]; [done|].
    destruct (_flushDataIfNeeded_frame d (stored d m' w1))
      as (_ & _ & _ & Hh & _).
    destruct (stored_fields d m' w1) as (_ & _ & _ & _ & _ & Sh & _).
    pose proof (leave_entered_fields _ _ _ Hd)
      as (_ & _ & _ & _ & _ & _ & _ & _ & _ & _ & Hh1 & _).
    unfold leave, entered in *.
    destruct (variant w); simpl in *; rewrite Hh, Sh, Hh1; done.
  - destruct s; try discriminate; simpl.
    + by destruct (read_allocates key w) as (ms & Hms & ->).
    + by destruct (readPage_allocates pageNumber pageSize w)
        as (ms & Hms & ->).
    + unfold fire_timer. destruct (timers w) as [|d ts]; [done|].
      unfold timer_callback, bind.
      destruct (_writeToFile_cases d (with_timers ts w))
        as [(e & w' & -> & [->| ->] & _)|(m' & j & _ & _ & ->)]; done.
    + unfold file_changed. destruct (watching w); [|done].
      unfold watch_callback, try_catch, bind at 1.
      by destruct (_readFromFile_cases w) as [(e & _ & ->)|(m & _ & ->)].
    + done.
Qed.

Lemma sound_new (b : build) (o : options) (f : option text)
    (can_write strict : bool) :
  sound (new_SimpleDB b o f can_write strict) /\
  held (new_SimpleDB b o f can_write strict) = 0%nat.
Proof.
  unfold new_SimpleDB, _initialize, decode. unfold_monad.
  destruct (opt_useCache o) as [[]|], f as [t|], can_write; simpl;
    try destruct t as [| |j]; simpl;
    try destruct (Object_entries (JSON_value j)) eqn:E; simpl;
    (split; [|reflexivity]);
    (split; [reflexivity|]);
    (split; [|split; [discriminate | by left]]);
    repeat constructor; apply keys_distinct_Map_of.
Qed.

(** Every world a program reaches is sound, with the lock free. *)
Lemma reachable_sound (w : world) :
  reachable w -> sound w /\ held w = 0%nat.
Proof.
  induction 1 as [b o f cw st|s w _ [IH Hh]]; [apply sound_new|].
  split; [by apply sound_step|].
  rewrite held_step; [done|]. by destruct IH.
Qed.

(** The half of the marker's contract that holds everywhere: there is
    never more than one timer, and while one is outstanding the marker is
    set. *)
Lemma at_most_one_timer (w : world) :
  reachable w ->
  (length (timers w) <= 1)%nat /\
  (timers w <> [] -> writeScheduled w = true).
Proof.
  intros [(_ & _ & _ & [->|(d & -> & Hw)]) _]%reachable_sound;
    simpl; split; auto.
Qed.

(** In a sound world the Dataset an operation gets hold of is a Map that
    holds no key twice: the statements above that ask for this ask for
    nothing a program can break. *)
Lemma sound_dataset (w w1 : world) (data : addr) :
  sound w ->
  current_data w = (Return data, w1) ->
  exists m, maps w1 !! data = Some m /\ keys_distinct m = true.
Proof.
  intros (Hv & Hk & _) Hd.
  destruct (current_data_frame _ _ _ Hd)
    as [(_ & -> & Hc)|(_ & -> & m & Hm & ->)].
  - unfold cache_valid in Hv. rewrite Hc in Hv.
    apply bool_decide_eq_true, lookup_lt_is_Some in Hv as [m Hm].
    exists m. split; [done|]. by eapply (proj1 (Forall_lookup _ _) Hk).
  - exists m. simpl. rewrite lookup_app_r by done.
    by rewrite Nat.sub_diag.
Qed.

Lemma reachable_dataset (w w1 : world) (data : addr) :
  reachable w ->
  lock_granted w = true /\
  (forall e, queue w = Some e -> system_error e = true) /\
  (current_data (entered w) = (Return data, w1) ->
   exists m, maps w1 !! data = Some m /\ keys_distinct m = true).
Proof.
  intros [Hs Hh]%reachable_sound. split; [|split].
  - unfold lock_granted. rewrite Hh. simpl. rewrite andb_false_r.
    by destruct (variant w).
  - by destruct Hs as (_ & _ & Hq & _).
  - apply sound_dataset. by apply sound_entered.
Qed.

(** * Further properties of the methods *)

(** ** What a call that returned has done *)

Lemma create_inv (w w' : world) (key value : jsval) (overwrite : bool)
    (r : outcome unit) :
  create key value overwrite w = (r, w') ->
  (exists e, r = Throw e /\ w' = w /\
             (e = InvalidKey \/ e = InvalidValue \/ system_error e = true)) \/
  (exists data w1,
     is_string key = true /\ _isValidJson value = true /\
     lock_granted w = true /\
     current_data (entered w) = (Return data, w1) /\
     (maps w1 !! data = None /\ r = Throw TypeError /\
      w' = leave (variant w) w1 \/
      exists m, maps w1 !! data = Some m /\
        (negb overwrite && map_has key m = true /\ r = Throw KeyExists /\
         w' = leave (variant w) w1 \/
         negb overwrite && map_has key m = false /\
         exists w2,
           _flushDataIfNeeded data (stored data (map_set key value m) w1)
             = (r, w2) /\
           w' = leave (variant w) w2))).
Proof.
  intros H.
  destruct (is_string key) eqn:Hk.
  2:{ unfold create in H. rewrite Hk in H. injection H as <- <-.
      left. exists InvalidKey. auto. }
  destruct (_isValidJson value) eqn:Hj.
  2:{ unfold create in H. rewrite Hk, Hj in H. injection H as <- <-.
      left. exists InvalidValue. auto. }
  destruct (lock_granted w) eqn:Hg.
  2:{ unfold create in H. rewrite Hk, Hj in H. simpl in H.
      rewrite locked_refused in H by done. injection H as <- <-.
      left. exists ELOCKED. auto. }
  destruct (current_data (entered w)) as [[data|e] w1] eqn:Hd.
  - right. exists data, w1. repeat split; try done.
    destruct (maps w1 !! data) as [m|] eqn:Hm.
    + right. exists m. split; [done|].
      rewrite (create_run w w1 data m) in H by done.
      destruct (negb overwrite && map_has key m).
      * left. by injection H as <- <-.
      * right. split; [done|].
        destruct (_flushDataIfNeeded _ _) as [r' w2] eqn:F. simpl in H.
        exists w2. by injection H as <- <-.
    + left. split; [done|].
      assert (X : create key value overwrite w
                  = (Throw TypeError, leave (variant w) w1)).
      { unfold create. rewrite Hk, Hj. simpl. apply locked_granted; [done|].
        unfold bind at 1. rewrite Hd. unfold bind at 1, deref at 1.
        by rewrite Hm. }
      rewrite X in H. by injection H as <- <-.
  - left. exists e.
    assert (Hs : system_error e = true).
    { destruct (current_data_cases (entered w))
        as [(e' & He' & He)|[(_ & d & _ & He)|(_ & m & _ & He)]];
        rewrite He in Hd; congruence. }
    unfold create in H. rewrite Hk, Hj in H. simpl in H.
    erewrite locked_no_data in H by done. injection H as <- <-. auto.
Qed.

Lemma delete_inv (w w' : world) (key : jsval) (r : outcome unit) :
  delete key w = (r, w') ->
  (exists e, r = Throw e /\ w' = w /\
             (e = InvalidKey \/ system_error e = true)) \/
  (exists data w1,
     is_string key = true /\ lock_granted w = true /\
     current_data (entered w) = (Return data, w1) /\
     (maps w1 !! data = None /\ r = Throw TypeError /\
      w' = leave (variant w) w1 \/
      exists m w2, maps w1 !! data = Some m /\
        _flushDataIfNeeded data (stored data (map_delete key m) w1)
          = (r, w2) /\
        w' = leave (variant w) w2)).
Proof.
  intros H.
  destruct (is_string key) eqn:Hk.
  2:{ unfold delete in H. rewrite Hk in H. injection H as <- <-.
      left. exists InvalidKey. auto. }
  destruct (lock_granted w) eqn:Hg.
  2:{ unfold delete in H. rewrite Hk in H. simpl in H.
      rewrite locked_refused in H by done. injection H as <- <-.
      left. exists ELOCKED. auto. }
  destruct (current_data (entered w)) as [[data|e] w1] eqn:Hd.
  - right. exists data, w1. repeat split; try done.
    destruct (maps w1 !! data) as [m|] eqn:Hm.
    + right. rewrite (delete_run w w1 data m) in H by done.
      destruct (_flushDataIfNeeded _ _) as [r' w2] eqn:F. simpl in H.
      exists m, w2. by injection H as <- <-.
    + left. split; [done|].
      assert (X : delete key w = (Throw TypeError, leave (variant w) w1)).
      { unfold delete. rewrite Hk. simpl. apply locked_granted; [done|].
        unfold bind at 1. rewrite Hd. unfold bind at 1, update_map at 1.
        by rewrite Hm. }
      rewrite X in H. by injection H as <- <-.
  - left. exists e.
    assert (Hs : system_error e = true).
    { destruct (current_data_cases (entered w))
        as [(e' & He' & He)|[(_ & d & _ & He)|(_ & m & _ & He)]];
        rewrite He in Hd; congruence. }
    unfold delete in H. rewrite Hk in H. simpl in H.
    erewrite locked_no_data in H by done. injection H as <- <-. auto.
Qed.

(** With the cache on, the Dataset an operation works on is the cache. *)
Lemma cached_current_data (w : world) (m : jsmap) :
  useCache w = true ->
  cached w = Some m ->
  exists data, dataCache w = Some data /\
               current_data (entered w) = (Return data, entered w) /\
               maps (entered w) !! data = Some m.
Proof.
  intros Hc Hm. unfold cached in Hm.
  destruct (dataCache w) as [data|] eqn:Hd; [|discriminate]. simpl in Hm.
  exists data. split; [done|].
  unfold current_data, entered. unfold_monad.
  destruct (variant w); simpl; rewrite Hc; simpl; by rewrite Hd.
Qed.

Lemma cached_leave_flush (w : world) (data : addr) (m m' : jsmap) :
  useCache w = true ->
  maps w !! data = Some m ->
  cached (leave (variant w) (_flushDataIfNeeded data (stored data m' w)).2)
    = Some m'.
Proof.
  intros Hc Hm.
  destruct (_flushDataIfNeeded_frame data (stored data m' w))
    as (_ & Hmaps & Hdc & _).
  unfold cached. rewrite leave_dataCache, leave_maps, Hdc, Hmaps.
  replace (dataCache (stored data m' w)) with (Some data)
    by (unfold stored; by rewrite Hc).
  simpl. by eapply stored_lookup.
Qed.

Lemma entered_variant (w : world) : variant (entered w) = variant w.
Proof. unfold entered. destruct (variant w) eqn:E; simpl; by rewrite ?E. Qed.

Lemma entered_useCache (w : world) : useCache (entered w) = useCache w.
Proof. unfold entered. by destruct (variant w). Qed.

Lemma entered_trace (w : world) : trace (entered w) = trace w.
Proof. unfold entered. by destruct (variant w). Qed.

Lemma reachable_run (steps : list step) (w : world) :
  reachable w -> reachable (run steps w).
Proof.
  revert w. induction steps as [|s steps IH]; intros w H; [done|].
  apply IH. by apply reachable_step.
Qed.

(** ** Create, update, delete and read, cache on *)

(** X1.  With the cache on, the [read] that follows a [create] (or an
    [update], which is [create] with [overwrite] set) that returned gives
    back the value, provided the value is truthy. *)
Theorem create_then_read_truthy (w w' : world) (key value : jsval)
    (overwrite : bool) :
  useCache w = true ->
  truthy value = true ->
  create key value overwrite w = (Return tt, w') ->
  read key w' = (Return value, w').
Proof.
  intros Hc Ht H. rewrite (read_after_create w w' key value overwrite Hc H).
  unfold js_or. by rewrite Ht.
Qed.

Lemma create_then_read_truthy_witness :
  let w := fresh WithQueue default_options in
  let v := JObj [("foo", JStr "bar")] in
  let v' := JObj [("foo", JStr "baz")] in
  let w1 := (create (JStr "key1") v false w).2 in
  let w2 := (update (JStr "key1") v' w1).2 in
  read (JStr "key1") w1 = (Return v, w1) /\
  read (JStr "key1") w2 = (Return v', w2).
Proof.
  intros w v v' w1 w2. split.
  - exact (create_then_read_truthy w w1 (JStr "key1") v false
             eq_refl eq_refl eq_refl).
  - exact (create_then_read_truthy w1 w2 (JStr "key1") v' true
             eq_refl eq_refl eq_refl).
Defined.

(** X2.  In every state a program can reach, with the cache on, the
    [read] that follows a [delete] that returned gives [null]. *)
Theorem delete_then_read (w w' : world) (key : jsval) :
  reachable w ->
  useCache w = true ->
  delete key w = (Return tt, w') ->
  read key w' = (Return JNull, w').
Proof.
  intros [Hs _]%reachable_sound Hc H.
  destruct (delete_inv _ _ _ _ H)
    as [(e & [=] & _)|(data & w1 & Hk & Hg & Hd & _)].
  destruct (sound_dataset _ _ _ (sound_entered _ Hs) Hd) as (m & Hm & Hkd).
  assert (Hce : useCache (entered w) = true).
  { unfold entered. by destruct (variant w). }
  destruct (current_data_frame _ _ _ Hd)
    as [(_ & -> & Hdc)|(Hn & _)]; [|congruence].
  eapply (read_after_delete w w' key m); try done.
  unfold cached, entered in *. destruct (variant w); simpl in *;
    rewrite Hdc; simpl; done.
Qed.

Lemma delete_then_read_witness :
  let w := run [Create (JStr "key1") (JNum 1) false;
                Create (JStr "key2") (JNum 2) false]
               (fresh WithQueue default_options) in
  let w' := (delete (JStr "key1") w).2 in
  read (JStr "key1") w' = (Return JNull, w').
Proof.
  intros w w'.
  apply (delete_then_read w w' (JStr "key1")); [|reflexivity|reflexivity].
  exact (reachable_run _ _ (reachable_new WithQueue default_options
                                          None true false)).
Defined.

Lemma map_keys_set_present (k v : jsval) (m : jsmap) :
  map_has k m = true -> map_keys (map_set k v m) = map_keys m.
Proof.
  induction m as [|[k' v'] m IH]; [done|].
  unfold map_has, map_set. fold map_has. fold map_set.
  destruct (SameValueZero k' k); simpl; [done|].
  intros H. unfold map_keys in *. simpl. f_equal. by apply IH.
Qed.

(** X3.  With the cache on, a [create] that returned has put the value
    under the key by [Map.set]: a key that was absent comes last in the
    Dataset order, and a key that was present (an update) keeps its place,
    so the order of the keys, which is the order of the pages, does not
    change. *)
Theorem create_keeps_order (w w' : world) (key value : jsval)
    (overwrite : bool) (m : jsmap) :
  useCache w = true ->
  cached w = Some m ->
  create key value overwrite w = (Return tt, w') ->
  cached w' = Some (map_set key value m) /\
  (map_has key m = false -> cached w' = Some (m ++ [(key, value)])) /\
  (map_has key m = true ->
   option_map map_keys (cached w') = Some (map_keys m)).
Proof.
  intros Hc Hm H.
  destruct (cached_current_data w m Hc Hm) as (data & Hdc & Hd & Hl).
  destruct (create_inv _ _ _ _ _ _ H)
    as [(e & [=] & _)|(data' & w1 & Hk & Hj & Hg & Hd' & Hrest)].
  rewrite Hd in Hd'. injection Hd' as <- <-.
  destruct Hrest as [(Hn & _)|(m0 & Hm0 & [(_ & X & _)|(_ & w2 & F & ->)])];
    [congruence|discriminate|].
  assert (m0 = m) as -> by congruence.
  assert (Hce : useCache (entered w) = true).
  { unfold entered. by destruct (variant w). }
  assert (E : cached (leave (variant w) w2) = Some (map_set key value m)).
  { pose proof (cached_leave_flush (entered w) data m (map_set key value m)
                  Hce Hl) as X.
    rewrite F in X. simpl in X.
    by rewrite entered_variant in X. }
  rewrite E. split; [done|]. split.
  - intros Ha. by rewrite map_set_absent.
  - intros Hp. simpl. by rewrite map_keys_set_present.
Qed.

Lemma create_keeps_order_witness :
  let w := run [Create (JStr "a") (JNum 1) false;
                Create (JStr "b") (JNum 2) false]
               (fresh WithQueue default_options) in
  cached (create (JStr "c") (JNum 3) false w).2
    = Some [(JStr "a", JNum 1); (JStr "b", JNum 2); (JStr "c", JNum 3)] /\
  cached (update (JStr "a") (JNum 9) w).2
    = Some [(JStr "a", JNum 9); (JStr "b", JNum 2)].
Proof.
  intros w. split.
  - exact (proj1 (create_keeps_order w _ (JStr "c") (JNum 3) false
                    [(JStr "a", JNum 1); (JStr "b", JNum 2)]
                    eq_refl eq_refl eq_refl)).
  - exact (proj1 (create_keeps_order w _ (JStr "a") (JNum 9) true
                    [(JStr "a", JNum 1); (JStr "b", JNum 2)]
                    eq_refl eq_refl eq_refl)).
Defined.

(** X4.  With the cache on, [delete] of a key that is not in the Dataset
    does not fail for that and leaves the Dataset as it is, yet it still
    calls the flush decision (which, with no delay and a Dataset that is
    not empty, writes the file again). *)
Theorem delete_missing_key (w : world) (key : jsval) (m : jsmap) :
  useCache w = true ->
  cached w = Some m ->
  is_string key = true ->
  lock_granted w = true ->
  map_has key m = false ->
  exists data,
    dataCache w = Some data /\
    cached (delete key w).2 = Some m /\
    flushes (trace (delete key w).2) = flushes (trace w) ++ [data] /\
    (delete key w).1
      = (_flushDataIfNeeded data (stored data m (entered w))).1.
Proof.
  intros Hc Hm Hk Hg Ha.
  destruct (cached_current_data w m Hc Hm) as (data & Hdc & Hd & Hl).
  exists data. split; [done|].
  rewrite (delete_run w _ data m Hg Hd Hl key Hk). simpl.
  rewrite map_delete_absent by done.
  assert (Hce : useCache (entered w) = true).
  { unfold entered. by destruct (variant w). }
  split; [|split; [|done]].
  - pose proof (cached_leave_flush (entered w) data m m Hce Hl) as X.
    by rewrite entered_variant in X.
  - destruct (flushes_after_flush data (stored data m (entered w))) as (Hf & _).
    destruct (stored_fields data m (entered w)) as (St & _).
    by rewrite leave_trace, Hf, St, entered_trace.
Qed.

Lemma delete_missing_key_witness :
  let w := run [Create (JStr "a") (JNum 1) false]
               (fresh WithQueue default_options) in
  let w' := (delete (JStr "zz") w).2 in
  (delete (JStr "zz") w).1 = Return tt /\
  cached w' = Some [(JStr "a", JNum 1)] /\
  writes (trace w') = writes (trace w) ++
                      [Doc (json_object [("a", json_number 1)])].
Proof.
  intros w w'.
  destruct (delete_missing_key w (JStr "zz") [(JStr "a", JNum 1)]
              eq_refl eq_refl eq_refl eq_refl eq_refl)
    as (data & Hd & Hc & Hf & Hr).
  split; [reflexivity|]. split; [exact Hc | reflexivity].
Defined.

(** ** When the file is written *)

Lemma map_set_nonempty (k v : jsval) (m : jsmap) : map_set k v m <> [].
Proof.
  destruct m as [|[k' v'] m]; unfold map_set; fold map_set; [done|].
  by destruct (SameValueZero k' k).
Qed.

(** The world in which the flush decision of a mutation runs differs from
    the one the mutation started in by the lock, the Maps and the cache
    pointer only. *)
Lemma stored_entered_fields (w w1 : world) (data : addr) (m' : jsmap) :
  current_data (entered w) = (Return data, w1) ->
  let s := stored data m' w1 in
  trace s = trace w /\ file s = file w /\ timers s = timers w /\
  writeScheduled s = writeScheduled w /\ queue s = queue w /\
  delayedWrite s = delayedWrite w /\ variant s = variant w /\
  useCache s = useCache w /\ writable s = writable w.
Proof.
  intros Hd.
  pose proof (leave_entered_fields _ _ _ Hd)
    as (? & ? & ? & ? & ? & ? & ? & ? & ? & _).
  destruct (stored_fields data m' w1)
    as (? & ? & ? & ? & ? & _ & ? & ? & ? & ?).
  simpl. repeat split; congruence.
Qed.

Lemma writes_flush_requested (t : list event) (data : addr) :
  writes (t ++ [FlushRequested data]) = writes t.
Proof. unfold writes. rewrite omap_app. apply app_nil_r. Qed.

Lemma writes_timer_set (t : list event) (data : addr) :
  writes (t ++ [TimerSet data]) = writes t.
Proof. unfold writes. rewrite omap_app. apply app_nil_r. Qed.

Lemma _flushDataIfNeeded_failed (data : addr) (w w' : world) (e : error) :
  _flushDataIfNeeded data w = (Throw e, w') ->
  file w' = file w /\ writes (trace w') = writes (trace w).
Proof.
  destruct (_flushDataIfNeeded_cases data w)
    as [[_ ->]|(m & _ & [[_ ->]|[(_ & _ & _ & ->)|(_ & _ & ->)]])];
    try discriminate.
  - intros [= _ <-]. simpl. by rewrite writes_flush_requested.
  - destruct (_writeToFile_cases data (add_event (FlushRequested data) w))
      as [(e' & w'' & -> & [->| ->] & _)|(m' & j & _ & _ & ->)];
      try discriminate; intros [= _ <-]; simpl;
      by rewrite writes_flush_requested.
Qed.

(** X5.  With no delay, when [create] returns the file holds the encoding
    of a Dataset in which the key has the value: the flush decision was
    called once, on that Dataset, and made exactly one write. *)
Theorem create_sync_durable (w w' : world) (key value : jsval)
    (overwrite : bool) :
  delayedWrite w <= 0 ->
  create key value overwrite w = (Return tt, w') ->
  exists data m j,
    flushes (trace w') = flushes (trace w) ++ [data] /\
    maps w' !! data = Some m /\
    map_get key m = value /\
    JSON_stringify (Object_fromEntries m) = Return (Some j) /\
    file w' = Some (Doc j) /\
    writes (trace w') = writes (trace w) ++ [Doc j].
Proof.
  intros HD H.
  destruct (create_inv _ _ _ _ _ _ H)
    as [(e & X & _)|(data & w1 & Hk & Hj & Hg & Hd & Hrest)]; [discriminate|].
  destruct Hrest as [(_ & X & _)|(m & Hm & [(_ & X & _)|(_ & w2 & F & ->)])];
    [discriminate|discriminate|].
  set (m' := map_set key value m) in *. set (s := stored data m' w1) in *.
  destruct (stored_entered_fields w w1 data m' Hd)
    as (St & Sf & _ & _ & _ & Sd & _). fold s in St, Sf, Sd.
  assert (Hs : maps s !! data = Some m') by by eapply stored_lookup.
  rewrite (flush_now data s m' Hs) in F;
    [|apply map_set_nonempty|by rewrite Sd].
  destruct (_writeToFile_cases data (add_event (FlushRequested data) s))
    as [(e' & w'' & E & _)|(m'' & j & Hm'' & Hj' & E)];
    rewrite E in F; [discriminate|].
  injection F as <-. simpl in Hm''.
  assert (m'' = m') as -> by congruence.
  exists data, m', j.
  rewrite leave_trace, leave_maps, leave_file. simpl.
  unfold flushes, writes. rewrite !omap_app. simpl.
  rewrite St, !app_nil_r. repeat split; try done.
  apply map_get_set.
Qed.

Lemma create_sync_durable_witness :
  let w := opened WithLockfile (Options (Some false) None)
                  (Doc (json_object [("a", json_number 1)])) in
  let w' := (create (JStr "b") (JStr "x") false w).2 in
  file w' = Some (Doc (json_object [("a", json_number 1);
                                    ("b", json_string "x")])) /\
  writes (trace w') = [Doc (json_object [("a", json_number 1);
                                         ("b", json_string "x")])].
Proof.
  intros w w'.
  destruct (create_sync_durable w w' (JStr "b") (JStr "x") false
              ltac:(simpl; lia) eq_refl)
    as (data & m & j & Hf & Hm & Hg & Hj & Hfile & Hw).
  split; reflexivity.
Defined.

(** X6.  With the cache on, [create] puts the value into the cached
    Dataset before the flush decision, and nothing takes it out again:
    when the flush fails, the call throws, the file and the writes are as
    before, and the cache keeps the new value. *)
Theorem failed_flush_keeps_mutation (w : world) (key value : jsval)
    (overwrite : bool) (m : jsmap) :
  useCache w = true ->
  cached w = Some m ->
  is_string key = true ->
  _isValidJson value = true ->
  lock_granted w = true ->
  negb overwrite && map_has key m = false ->
  let r := create key value overwrite w in
  cached r.2 = Some (map_set key value m) /\
  (forall e, r.1 = Throw e ->
             file r.2 = file w /\ writes (trace r.2) = writes (trace w)).
Proof.
  intros Hc Hm Hk Hj Hg Hn.
  destruct (cached_current_data w m Hc Hm) as (data & Hdc & Hd & Hl).
  simpl. rewrite (create_run w _ data m Hg Hd Hl key value overwrite Hk Hj).
  rewrite Hn. simpl. split.
  - pose proof (cached_leave_flush (entered w) data m (map_set key value m))
      as X.
    rewrite entered_variant, entered_useCache in X. by apply X.
  - intros e He.
    destruct (_flushDataIfNeeded _ _) as [r w2] eqn:F. simpl in *. subst r.
    destruct (_flushDataIfNeeded_failed _ _ _ _ F) as (Hf & Hw).
    destruct (stored_entered_fields w _ data (map_set key value m) Hd)
      as (St & Sf & _).
    by rewrite leave_file, leave_trace, Hf, Hw, St, Sf.
Qed.

Lemma failed_flush_keeps_mutation_witness :
  let w := new_SimpleDB WithQueue default_options
                        (Some (Doc (json_object []))) false false in
  let r := create (JStr "a") (JNum 1) false w in
  r.1 = Throw EACCES /\
  cached r.2 = Some [(JStr "a", JNum 1)] /\
  file r.2 = Some (Doc (json_object [])) /\
  (read (JStr "a") r.2).1 = Return (JNum 1).
Proof.
  intros w r.
  destruct (failed_flush_keeps_mutation w (JStr "a") (JNum 1) false []
              eq_refl eq_refl eq_refl eq_refl eq_refl eq_refl) as (Hc & Hf).
  split; [reflexivity|]. split; [exact Hc|].
  split; [exact (proj1 (Hf EACCES eq_refl)) | reflexivity].
Defined.

(** X7.  With a delay, no mutating operation writes the file itself:
    whatever it does, the file and the list of writes are as before when
    it ends. *)
Theorem delayed_mutation_writes_nothing (s : step) (w : world) :
  0 < delayedWrite w ->
  mutation s = true ->
  cache_valid w = true ->
  file (run_step s w) = file w /\
  writes (trace (run_step s w)) = writes (trace w).
Proof.
  intros HD Hmut Hv.
  destruct (mutation_shape s w Hmut Hv)
    as [(ms & _ & ->)|(d & w1 & m & m' & Hd & Hm & -> & _)]; [done|].
  set (s0 := stored d m' w1).
  destruct (stored_entered_fields w w1 d m' Hd)
    as (St & Sf & _ & _ & _ & Sd & _). fold s0 in St, Sf, Sd.
  rewrite leave_file, leave_trace.
  destruct (_flushDataIfNeeded_cases d s0)
    as [[_ ->]|(m0 & _ & [[_ ->]|[(_ & _ & _ & ->)|(_ & X & _)]])];
    simpl; [| | |lia];
    by rewrite ?writes_timer_set, writes_flush_requested, St, Sf.
Qed.

Lemma delayed_mutation_writes_nothing_witness :
  let w := opened WithQueue (Options None (Some 50))
                  (Doc (json_object [("a", json_number 1)])) in
  let w' := run_step (BatchWrite [Operation (JStr "b") (JNum 2) (JStr "create");
                                  Operation (JStr "a") JUndefined (JStr "delete")])
                     w in
  cached w' = Some [(JStr "b", JNum 2)] /\
  file w' = Some (Doc (json_object [("a", json_number 1)])) /\
  writes (trace w') = [].
Proof.
  intros w w'.
  destruct (delayed_mutation_writes_nothing
              (BatchWrite [Operation (JStr "b") (JNum 2) (JStr "create");
                           Operation (JStr "a") JUndefined (JStr "delete")])
              w ltac:(simpl; lia) eq_refl eq_refl) as (Hf & Hw).
  split; [reflexivity|]. split; [exact Hf | exact Hw].
Defined.

(** X8.  With the cache on, a delay, and no flush pending, a [create] that
    returned has set the marker and started exactly one timer, on the
    cached Dataset, and has not written. *)
Theorem create_schedules_flush (w w' : world) (key value : jsval)
    (overwrite : bool) :
  useCache w = true ->
  0 < delayedWrite w ->
  writeScheduled w = false ->
  timers w = [] ->
  create key value overwrite w = (Return tt, w') ->
  exists data, pending data w' /\
               file w' = file w /\ writes (trace w') = writes (trace w).
Proof.
  intros Hc HD Hws Htm H.
  destruct (create_inv _ _ _ _ _ _ H)
    as [(e & X & _)|(data & w1 & Hk & Hj & Hg & Hd & Hrest)]; [discriminate|].
  destruct Hrest as [(_ & X & _)|(m & Hm & [(_ & X & _)|(_ & w2 & F & ->)])];
    [discriminate|discriminate|].
  set (m' := map_set key value m) in *. set (s := stored data m' w1) in *.
  destruct (stored_entered_fields w w1 data m' Hd)
    as (St & Sf & Stm & Sws & _ & Sd & _ & Sc & _).
  fold s in St, Sf, Stm, Sws, Sd, Sc.
  assert (Hs : maps s !! data = Some m') by by eapply stored_lookup.
  rewrite (flush_schedule data s m' Hs) in F;
    [|apply map_set_nonempty|by rewrite Sd|by rewrite Sws].
  injection F as <-.
  assert (Hdc : dataCache s = Some data).
  { unfold s, stored.
    replace (useCache w1) with true; [done|].
    pose proof (leave_entered_fields _ _ _ Hd) as (_ & _ & _ & _ & _ & E & _).
    congruence. }
  exists data. unfold pending.
  rewrite leave_file, leave_trace, leave_timers, leave_writeScheduled,
    leave_dataCache, leave_maps.
  assert (E : forall b, useCache (leave b (add_event (TimerSet data)
                 (with_timers (timers s ++ [data])
                    (with_writeScheduled true
                       (add_event (FlushRequested data) s))))) = useCache s
              /\ delayedWrite (leave b (add_event (TimerSet data)
                 (with_timers (timers s ++ [data])
                    (with_writeScheduled true
                       (add_event (FlushRequested data) s))))) = delayedWrite s).
  { by intros []. }
  destruct (E (variant w)) as [-> ->]. simpl.
  rewrite Sc, Sd, Stm, Htm, Hdc, Sf.
  unfold writes. rewrite !omap_app. simpl. rewrite !app_nil_r.
  fold (writes (trace s)). rewrite St.
  repeat split; try done. by eapply lookup_lt_Some.
Qed.

Lemma create_schedules_flush_witness :
  let w := fresh WithQueue (Options None (Some 50)) in
  let w' := (create (JStr "a") (JNum 1) false w).2 in
  pending 1%nat w' /\ file w' = Some (Doc (json_object [])).
Proof.
  intros w w'.
  destruct (create_schedules_flush w w' (JStr "a") (JNum 1) false
              eq_refl ltac:(simpl; lia) eq_refl eq_refl eq_refl)
    as (data & Hp & Hf & _).
  split; [|exact Hf].
  unfold pending. repeat split; try reflexivity; simpl; lia.
Defined.

(** ** The write queue of the queue build *)

Lemma writes_no_write (t : list event) (ev : event) :
  match ev with Wrote _ => False | _ => True end ->
  writes (t ++ [ev]) = writes t.
Proof.
  intros H. unfold writes. rewrite omap_app.
  destruct ev; try done; apply app_nil_r.
Qed.

Lemma _writeToFile_rejected (data : addr) (w : world) (e : error) :
  variant w = WithQueue -> queue w = Some e ->
  _writeToFile data w = (Throw e, w).
Proof.
  destruct w as [b c d dc ws q h f wr sl hd wt ts tr]. simpl.
  by intros -> ->.
Qed.

Lemma flush_rejected (data : addr) (w : world) (e : error) :
  variant w = WithQueue -> queue w = Some e ->
  let w' := (_flushDataIfNeeded data w).2 in
  variant w' = WithQueue /\ queue w' = Some e /\
  writes (trace w') = writes (trace w).
Proof.
  intros Hv Hq.
  destruct (_flushDataIfNeeded_cases data w)
    as [[_ ->]|(m & _ & [[_ ->]|[(_ & _ & _ & ->)|(_ & _ & ->)]])].
  - simpl. by rewrite writes_flush_requested.
  - simpl. by rewrite writes_flush_requested.
  - simpl. by rewrite writes_timer_set, writes_flush_requested.
  - rewrite (_writeToFile_rejected data _ e) by done.
    simpl. by rewrite writes_flush_requested.
Qed.

Lemma watch_callback_cases (w : world) :
  (exists e, system_error e = true /\
             (watch_callback w).2 = add_event (EmitError e) w) \/
  (exists m, keys_distinct m = true /\
             _readFromFile w =
               (Return (length (maps w)), with_maps (maps w ++ [m]) w) /\
             (watch_callback w).2 =
               add_event (EmitFileChanged (length (maps w)))
                 (with_dataCache (Some (length (maps w)))
                    (with_maps (maps w ++ [m]) w))).
Proof.
  destruct (_readFromFile_cases w) as [(err & He & E)|(m & Hm & E)].
  - left. exists err. split; [done|].
    unfold watch_callback, try_catch, bind at 1. by rewrite E.
  - right. exists m. split; [done|]. split; [done|].
    unfold watch_callback, try_catch, bind at 1. by rewrite E.
Qed.

Lemma rejected_step (s : step) (w : world) (e : error) :
  cache_valid w = true -> variant w = WithQueue -> queue w = Some e ->
  variant (run_step s w) = WithQueue /\ queue (run_step s w) = Some e /\
  writes (trace (run_step s w)) = writes (trace w).
Proof.
  intros Hcv Hv Hq. destruct (mutation s) eqn:Hmut.
  - destruct (mutation_shape s w Hmut Hcv)
      as [(ms & _ & ->)|(d & w1 & m & m' & Hd & _ & -> & _)]; [done|].
    destruct (stored_entered_fields w w1 d m' Hd)
      as (St & _ & _ & _ & Sq & _ & Sv & _).
    destruct (flush_rejected d (stored d m' w1) e) as (Fv & Fq & Fw);
      [congruence|congruence|].
    rewrite Hv. simpl. rewrite Fv, Fq, Fw. by rewrite St.
  - destruct s; try discriminate; simpl.
    + by destruct (read_allocates key w) as (ms & _ & ->).
    + by destruct (readPage_allocates pageNumber pageSize w)
        as (ms & _ & ->).
    + unfold fire_timer. destruct (timers w) as [|d ts]; [done|].
      unfold timer_callback, bind.
      rewrite (_writeToFile_rejected d (with_timers ts w) e) by done.
      simpl. by rewrite writes_no_write.
    + unfold file_changed. destruct (watching w); [|done].
      destruct (watch_callback_cases w) as [(e' & _ & ->)|(m & _ & _ & ->)];
        simpl; by rewrite writes_no_write.
    + done.
Qed.

(** X9.  In the queue build a write that failed rejects the promise chain
    for good: whatever the program does afterwards, the chain stays
    rejected with the same error and the instance never writes to the
    file again. *)
Theorem rejected_queue_never_writes (w : world) (e : error)
    (steps : list step) :
  reachable w ->
  variant w = WithQueue ->
  queue w = Some e ->
  queue (run steps w) = Some e /\
  writes (trace (run steps w)) = writes (trace w).
Proof.
  intros Hr Hv Hq. revert w Hr Hv Hq.
  induction steps as [|s steps IH]; intros w Hr Hv Hq; [done|].
  change (run (s :: steps) w) with (run steps (run_step s w)).
  destruct (reachable_sound w Hr) as [(Hcv & _) _].
  destruct (rejected_step s w e Hcv Hv Hq) as (Hv' & Hq' & Hw').
  destruct (IH (run_step s w)) as [? ?];
    [by apply reachable_step|done|done|].
  split; [done|congruence].
Qed.

Lemma rejected_queue_never_writes_witness :
  let w := run [BatchWrite [Operation (JStr "a") (JBigInt 1) (JStr "create")]]
               (fresh WithQueue default_options) in
  let w' := run [Delete (JStr "a"); Create (JStr "b") (JNum 1) false] w in
  queue w = Some TypeError /\
  cached w' = Some [(JStr "b", JNum 1)] /\
  writes (trace w') = [Doc (json_object [])].
Proof.
  intros w w'.
  destruct (rejected_queue_never_writes w TypeError
              [Delete (JStr "a"); Create (JStr "b") (JNum 1) false]
              (reachable_run _ _
                 (reachable_new WithQueue default_options None true false))
              eq_refl eq_refl) as (Hq & Hw).
  split; [reflexivity|]. split; [reflexivity|exact Hw].
Defined.

(** ** The lock of the lockfile build *)

Lemma _writeToFile_nested (data : addr) (w : world) :
  variant w = WithLockfile -> strict_lock w = true -> (0 < held w)%nat ->
  _writeToFile data w = (Throw ELOCKED, w).
Proof.
  destruct w as [b c d dc ws q h f wr sl hd wt ts tr]. simpl.
  intros -> -> H. unfold _writeToFile, bind, get, lock. simpl.
  destruct hd; [lia|done].
Qed.

(** X10.  In the lockfile build [create] holds the lock while the flush
    decision runs, and [_writeToFile] asks for the same lock again.  When
    the lock turns a second taker away, as proper-lockfile does, a
    [create] without delay can only fail, and it leaves the file as it
    was. *)
Theorem nested_lock_refused (w : world) (key value : jsval)
    (overwrite : bool) :
  variant w = WithLockfile ->
  strict_lock w = true ->
  delayedWrite w <= 0 ->
  exists e w', create key value overwrite w = (Throw e, w') /\
               file w' = file w /\ writes (trace w') = writes (trace w).
Proof.
  intros Hv Hsl HD.
  destruct (create key value overwrite w) as [r w'] eqn:H.
  destruct (create_inv _ _ _ _ _ _ H)
    as [(e & -> & -> & _)|(data & w1 & Hk & Hj & Hg & Hd & Hrest)];
    [by eexists _, _|].
  pose proof (leave_entered_fields _ _ _ Hd)
    as (Lt & Lf & _ & _ & _ & _ & _ & _ & _ & _ & Lh & Ls).
  destruct Hrest
    as [(_ & -> & ->)|(m & Hm & [(_ & -> & ->)|(_ & w2 & F & ->)])].
  - eexists _, _. split; [done|]. by rewrite leave_file, leave_trace, Lt, Lf.
  - eexists _, _. split; [done|]. by rewrite leave_file, leave_trace, Lt, Lf.
  - set (m' := map_set key value m) in *. set (s := stored data m' w1) in *.
    destruct (stored_entered_fields w w1 data m' Hd)
      as (St & Sf & _ & _ & _ & Sd & Sv & _).
    fold s in St, Sf, Sd, Sv.
    assert (Hs : maps s !! data = Some m') by by eapply stored_lookup.
    rewrite (flush_now data s m' Hs) in F;
      [|apply map_set_nonempty|by rewrite Sd].
    rewrite _writeToFile_nested in F.
    + injection F as <- <-. eexists _, _. split; [done|].
      rewrite leave_file, leave_trace. simpl.
      by rewrite writes_flush_requested, St, Sf.
    + simpl. congruence.
    + simpl. unfold s, stored. destruct (useCache w1); simpl; congruence.
    + simpl.
      replace (held s) with (held w1)
        by (unfold s, stored; by destruct (useCache w1)).
      rewrite Lh. unfold entered. rewrite Hv. simpl. lia.
Qed.

Lemma nested_lock_refused_witness :
  let w := new_SimpleDB WithLockfile default_options None true true in
  let r := create (JStr "a") (JNum 1) false w in
  r.1 = Throw ELOCKED /\
  cached r.2 = Some [(JStr "a", JNum 1)] /\
  file r.2 = Some (Doc (json_object [])).
Proof.
  intros w r.
  destruct (nested_lock_refused w (JStr "a") (JNum 1) false
              eq_refl eq_refl ltac:(simpl; lia)) as (e & w' & H & Hf & _).
  subst r. rewrite H in *. simpl.
  split; [|split; [|exact Hf]].
  - vm_compute in H. by injection H as <- _.
  - vm_compute in H. by injection H as _ <-.
Defined.

(** X11.  Every method that takes the lock gives it back, whether its body
    returns or throws: after any run of a program on a new instance the
    lock is free. *)
Theorem lock_released (steps : list step) (b : build) (o : options)
    (f : option text) (can_write strict : bool) :
  held (run steps (new_SimpleDB b o f can_write strict)) = 0%nat.
Proof.
  apply reachable_sound, reachable_run, reachable_new.
Qed.

(** ** The reading methods *)

Lemma reading_frame {A} (w : world) (k : addr -> M A) :
  (forall data w1, (k data w1).2 = w1) ->
  exists ms, ((data <- current_data;; k data) w).2
               = with_maps (maps w ++ ms) w /\
             (useCache w = true -> ms = []).
Proof.
  intros Hk. unfold bind.
  destruct (current_data_cases w)
    as [(e & _ & ->)|[(_ & d & _ & ->)|(Hc & m & Hm & ->)]].
  - exists []. split; [|done]. by rewrite with_maps_same.
  - exists []. split; [|done]. by rewrite Hk, with_maps_same.
  - exists [m]. split; [by rewrite Hk|congruence].
Qed.

(** X12.  The four reading methods change nothing an observer or a later
    call can see: no field of the instance, no existing Map, the file, the
    timers and the trace stay as they are.  With the cache off a call
    leaves behind the Map it read the file into; with the cache on the
    world is the same after the call. *)
Theorem reads_only_allocate (w : world) (key : jsval) (pn ps : option Z)
    (keys : list jsval) :
  let unchanged w' :=
    exists ms, w' = with_maps (maps w ++ ms) w /\
               (useCache w = true -> ms = []) in
  unchanged (read key w).2 /\ unchanged (readPage pn ps w).2 /\
  unchanged (batchRead keys w).2 /\ unchanged (readAll w).2.
Proof.
  assert (D : forall A (f : jsmap -> A) data w1,
             ((m <- deref data;; ret (f m)) w1).2 = w1).
  { intros A f data w1. unfold bind, deref, ret.
    by destruct (maps w1 !! data). }
  assert (S0 : exists ms : list jsmap,
             w = with_maps (maps w ++ ms) w /\ (useCache w = true -> ms = [])).
  { exists []. by rewrite with_maps_same. }
  simpl. repeat split.
  - unfold read. destruct (is_string key); simpl; [|done].
    apply reading_frame. intros data w1. apply D.
  - unfold readPage. apply reading_frame. intros data w1. apply D.
  - unfold batchRead. apply reading_frame. intros data w1. apply D.
  - unfold readAll, bind at 1, get. destruct (variant w); [done|].
    apply reading_frame. intros data w1. apply D.
Qed.

(** ** Timers and writes along a run *)

(** X13.  After any run of a program on a new instance at most one flush
    timer is outstanding, and while one is, the marker is set. *)
Theorem one_timer_along_a_run (steps : list step) (b : build) (o : options)
    (f : option text) (can_write strict : bool) :
  let w := run steps (new_SimpleDB b o f can_write strict) in
  (length (timers w) <= 1)%nat /\
  (timers w <> [] -> writeScheduled w = true).
Proof.
  intros w.
  assert (Hr : reachable w) by apply reachable_run, reachable_new.
  apply reachable_sound in Hr as [(_ & _ & _ & [->|(d & -> & Hw)]) _];
    simpl; split; auto.
Qed.








(** ** Construction *)

(** X15.  Over a path that does not exist, and a directory that can be
    written, the constructor writes the text of the empty object, starts
    the watcher and emits nothing.  It also puts a new empty Map into
    [dataCache], in both builds and also when the cache is off. *)
Theorem initialize_creates_missing_file (b : build) (o : options)
    (strict : bool) :
  let w := new_SimpleDB b o None true strict in
  file w = Some (Doc (json_object [])) /\
  trace w = [Wrote (Doc (json_object []))] /\
  cached w = Some [] /\
  watching w = true /\
  useCache w = default true (opt_useCache o).
Proof.
  destruct o as [c d]. destruct c as [c|]; [destruct c|]; repeat split.
Qed.

(** X16.  Over an existing file, with the cache on, the constructor loads
    the cache from the file and starts the watcher: an empty file counts
    as the empty object, and the entries of the value the text decodes to
    become the Map, a later entry with the same key replacing an earlier
    one.  The file is not touched and nothing is emitted. *)
Theorem initialize_loads_file (b : build) (o : options)
    (can_write strict : bool) (t : text) (v : jsval)
    (entries : list (jsval * jsval)) :
  opt_useCache o <> Some false ->
  JSON_parse (match t with Blank => Doc (json_object []) | _ => t end)
    = Return v ->
  Object_entries v = Return entries ->
  let w := new_SimpleDB b o (Some t) can_write strict in
  cached w = Some (Map_of entries) /\
  watching w = true /\ trace w = [] /\ file w = Some t.
Proof.
  intros Hc Hp He.
  assert (opt_useCache o = Some true \/ opt_useCache o = None) as Hc'.
  { destruct (opt_useCache o) as [[]|]; auto. by destruct Hc. }
  unfold new_SimpleDB, _initialize, decode. unfold_monad.
  destruct Hc' as [-> | ->]; simpl;
    rewrite Hp; simpl; rewrite He; done.
Qed.

Lemma initialize_loads_file_witness :
  let w := opened WithLockfile default_options
             (Doc (json_object [("b", json_number 2); ("a", json_null);
                                ("b", json_number 3)])) in
  cached w = Some [(JStr "b", JNum 3); (JStr "a", JNull)] /\
  watching w = true.
Proof.
  intros w.
  destruct (initialize_loads_file WithLockfile default_options true false
              (Doc (json_object [("b", json_number 2); ("a", json_null);
                                 ("b", json_number 3)]))
              _ _ ltac:(simpl; congruence) eq_refl eq_refl)
    as (Hcache & Hw & _).
  split; [exact Hcache | exact Hw].
Defined.


(** ** The change watcher, when the read succeeds *)

Lemma _readFromFile_document (w : world) (t : text) (v : jsval)
    (entries : list (jsval * jsval)) :
  lock_granted w = true ->
  file w = Some t ->
  JSON_parse t = Return v ->
  Object_entries v = Return entries ->
  _readFromFile w =
    (Return (length (maps w)), with_maps (maps w ++ [Map_of entries]) w).
Proof.
  destruct w as [b c d dc ws q h f wr sl hd wt ts tr].
  unfold lock_granted. simpl. intros Hg -> Hp He.
  unfold _readFromFile, decode. unfold_monad. simpl.
  destruct b; simpl.
  - apply negb_true_iff in Hg. rewrite Hg. simpl. rewrite Hp. simpl.
    by rewrite He.
  - rewrite Hp. simpl. by rewrite He.
Qed.

Lemma file_changed_document (w : world) (t : text) (v : jsval)
    (entries : list (jsval * jsval)) :
  watching w = true ->
  lock_granted w = true ->
  file w = Some t ->
  JSON_parse t = Return v ->
  Object_entries v = Return entries ->
  file_changed w =
    add_event (EmitFileChanged (length (maps w)))
      (with_dataCache (Some (length (maps w)))
         (with_maps (maps w ++ [Map_of entries]) w)).
Proof.
  intros Hw Hg Hf Hp He. unfold file_changed. rewrite Hw.
  unfold watch_callback, try_catch, bind at 1.
  by rewrite (_readFromFile_document w t v entries).
Qed.

Lemma free_lock_granted (w : world) : held w = 0%nat -> lock_granted w = true.
Proof.
  intros Hh. unfold lock_granted. rewrite Hh. simpl. rewrite andb_false_r.
  by destruct (variant w).
Qed.

(** X18.  When the file changes and the watcher's read succeeds, the
    listener replaces the cache by a new Map with the entries of the
    file and emits [fileChanged] with that Map; the Maps that existed
    stay as they were, and neither the file nor the marker nor a timer is
    touched.  It does so whether or not the cache is on. *)
Theorem watcher_refreshes_cache (w : world) (t : text) (v : jsval)
    (entries : list (jsval * jsval)) :
  watching w = true ->
  lock_granted w = true ->
  file w = Some t ->
  JSON_parse t = Return v ->
  Object_entries v = Return entries ->
  let w' := file_changed w in
  cached w' = Some (Map_of entries) /\
  maps w' = maps w ++ [Map_of entries] /\
  trace w' = trace w ++ [EmitFileChanged (length (maps w))] /\
  file w' = file w /\ timers w' = timers w /\
  writeScheduled w' = writeScheduled w.
Proof.
  intros Hw Hg Hf Hp He. simpl.
  rewrite (file_changed_document w t v entries) by done.
  simpl. repeat split; try done.
  unfold cached. simpl. rewrite lookup_app_r by done.
  by rewrite Nat.sub_diag.
Qed.

Lemma watcher_refreshes_cache_witness :
  let w := external_write (Doc (json_object [("z", json_bool true)]))
             (run [Create (JStr "a") (JNum 1) false]
                  (fresh WithLockfile default_options)) in
  cached w = Some [(JStr "a", JNum 1)] /\
  cached (file_changed w) = Some [(JStr "z", JBool true)] /\
  (read (JStr "a") (file_changed w)).1 = Return JNull.
Proof.
  intros w.
  destruct (watcher_refreshes_cache w
              (Doc (json_object [("z", json_bool true)])) _ _
              eq_refl eq_refl eq_refl eq_refl eq_refl) as (Hc & _).
  split; [reflexivity|]. split; [exact Hc | reflexivity].
Defined.

(** X19.  A flush that is pending when another process rewrites the file
    is not cancelled by the watcher: the listener replaces the cache by
    what the file holds, and the timer, which still refers to the Map that
    was the cache before, then writes that Map over the file.  After it
    the file holds the old Dataset and the cache the new one. *)
Theorem pending_flush_overwrites_external_change (w : world) (data : addr)
    (m : jsmap) (j : json) (t : text) (v : jsval)
    (entries : list (jsval * jsval)) :
  pending data w ->
  watching w = true ->
  held w = 0%nat -> queue w = None -> writable w = true ->
  maps w !! data = Some m ->
  JSON_stringify (Object_fromEntries m) = Return (Some j) ->
  JSON_parse t = Return v ->
  Object_entries v = Return entries ->
  let w' := run [ExternalWrite t; FileChanged; TimerExpires] w in
  file w' = Some (Doc j) /\
  cached w' = Some (Map_of entries) /\
  writeScheduled w' = false /\ timers w' = [].
Proof.
  intros (_ & _ & _ & Ht & _ & Hlt) Hw Hh Hq Hwr Hm Hj Hp He.
  change (run [ExternalWrite t; FileChanged; TimerExpires] w)
    with (fire_timer (file_changed (external_write t w))).
  rewrite (file_changed_document _ t v entries);
    [|done|by apply free_lock_granted|done|done|done].
  unfold fire_timer. simpl. rewrite Ht.
  unfold timer_callback, bind.
  rewrite (_writeToFile_ok data _ m j); simpl; try done.
  - repeat split. unfold cached. simpl.
    rewrite lookup_app_r by done. by rewrite Nat.sub_diag.
  - by rewrite lookup_app_l.
Qed.

Lemma pending_flush_overwrites_external_change_witness :
  let w := run [Create (JStr "a") (JNum 1) false]
               (fresh WithQueue (Options None (Some 50))) in
  let w' := run [ExternalWrite (Doc (json_object [("z", json_bool true)]));
                 FileChanged; TimerExpires] w in
  file w' = Some (Doc (json_object [("a", json_number 1)])) /\
  cached w' = Some [(JStr "z", JBool true)].
Proof.
  intros w w'.
  assert (Hp : pending 1%nat w).
  { unfold pending. repeat split; try reflexivity; simpl; lia. }
  destruct (pending_flush_overwrites_external_change w 1%nat
              [(JStr "a", JNum 1)] (json_object [("a", json_number 1)])
              (Doc (json_object [("z", json_bool true)])) _ _
              Hp eq_refl eq_refl eq_refl eq_refl eq_refl eq_refl
              eq_refl eq_refl) as (Hf & Hc & _).
  split; [exact Hf | exact Hc].
Defined.

(** ** Writing the Dataset and reading it back *)

Lemma fold_left_map_list {A B C} (f : A -> C -> A) (g : B -> C)
    (l : list B) (a : A) :
  fold_left f (map g l) a = fold_left (fun a x => f a (g x)) l a.
Proof. revert a. induction l as [|x l IH]; intros a; simpl; [done|apply IH]. Qed.

Lemma JSON_stringify_representable (ps : list (string * jsval)) :
  Forall (fun kv => json_representable kv.2) ps ->
  exists members,
    JSON_stringify (JObj ps) = Return (Some (json_object members)) /\
    map (fun m => (m.1, JSON_value m.2)) members = ps.
Proof.
  intros H.
  assert (G : exists members,
    (fix members (l : list (string * jsval))
       : outcome (list (string * json)) :=
       match l with
       | [] => Return []
       | (k, x) :: l' =>
           match JSON_stringify x with
           | Throw e => Throw e
           | Return o =>
               match members l' with
               | Throw e => Throw e
               | Return ms =>
                   Return (match o with
                           | Some j => (k, j) :: ms
                           | None => ms
                           end)
               end
           end
       end) ps = Return members /\
    map (fun m => (m.1, JSON_value m.2)) members = ps).
  { induction H as [|[k x] l (j & Hj & Hv) _ (ms & IH1 & IH2)].
    - by exists [].
    - exists ((k, j) :: ms). simpl in *. rewrite Hj, IH1. simpl.
      by rewrite Hv, IH2. }
  destruct G as (ms & G1 & G2). exists ms. split; [|done].
  change (JSON_stringify (JObj ps)) with
    (match
        (fix members (l : list (string * jsval))
           : outcome (list (string * json)) :=
           match l with
           | [] => Return []
           | (k, x) :: l' =>
               match JSON_stringify x with
               | Throw e => Throw e
               | Return o =>
                   match members l' with
                   | Throw e => Throw e
                   | Return ms =>
                       Return (match o with
                               | Some j => (k, j) :: ms
                               | None => ms
                               end)
                   end
               end
           end) ps
      with
      | Throw e => Throw e
      | Return ms => Return (Some (json_object ms))
      end).
  by rewrite G1.
Qed.

Lemma entries_as_props (m : jsmap) :
  forallb plain_key m = true ->
  map (fun kv : string * jsval => (JStr kv.1, kv.2)) (as_props m) = m.
Proof.
  induction m as [|[k v] m IH]; [done|]. simpl.
  intros [Hk Hm]%andb_true_iff. rewrite IH by done.
  unfold plain_key in Hk. apply andb_true_iff in Hk as [Hk _].
  by destruct k.
Qed.

Lemma Map_of_fold (es acc : jsmap) :
  keys_distinct (acc ++ es) = true ->
  fold_left (fun m kv => map_set kv.1 kv.2 m) es acc = acc ++ es.
Proof.
  revert acc. induction es as [|[k v] es IH]; intros acc Hd; simpl.
  - by rewrite app_nil_r.
  - rewrite map_set_absent by (by eapply keys_distinct_app_head).
    rewrite IH; by rewrite <- app_assoc.
Qed.

(** What the codec does to a Dataset of plain string keys and
    representable values: encoding the object made from it and decoding
    the document gives an object with the same entries in the same
    order. *)
Lemma codec_round_trip (m : jsmap) (j : json) :
  forallb plain_key m = true ->
  keys_distinct m = true ->
  Forall (fun kv => json_representable kv.2) m ->
  JSON_stringify (Object_fromEntries m) = Return (Some j) ->
  Object_entries (JSON_value j) = Return m.
Proof.
  intros Hp Hd Hr Hj.
  rewrite Object_fromEntries_plain in Hj by done.
  assert (Hr' : Forall (fun kv : string * jsval => json_representable kv.2)
                       (as_props m)).
  { clear -Hr. induction Hr as [|[k v] m H _ IH]; constructor; done. }
  destruct (JSON_stringify_representable _ Hr') as (ms & E & Hms).
  rewrite E in Hj. injection Hj as <-.
  assert (V : JSON_value (json_object ms) = JObj (as_props m)).
  { simpl. f_equal.
    transitivity (fold_left (fun ps kv => define_property kv.1 kv.2 ps)
                            (map (fun m0 : string * json =>
                                    (m0.1, JSON_value m0.2)) ms) []).
    { symmetry.
      exact (fold_left_map_list
               (fun ps (kv : string * jsval) => define_property kv.1 kv.2 ps)
               (fun m0 : string * json => (m0.1, JSON_value m0.2)) ms []). }
    rewrite Hms. unfold as_props at 1.
    rewrite (fold_left_map_list
               (fun ps (kv : string * jsval) => define_property kv.1 kv.2 ps)
               (fun kv : jsval * jsval => (ToString kv.1, kv.2)) m []).
    exact (fromEntries_fold m [] Hp Hd). }
  rewrite V. simpl. by rewrite entries_as_props.
Qed.

Lemma _writeToFile_returned (data : addr) (w w1 : world) :
  _writeToFile data w = (Return tt, w1) -> lock_granted w = true.
Proof.
  destruct w as [b c d dc ws q h f wr sl hd wt ts tr].
  unfold lock_granted, _writeToFile. unfold_monad. simpl.
  destruct b; simpl; [|done].
  by destruct (sl && (0 <? hd)%nat).
Qed.

(** X20.  What [_writeToFile] has written, [_readFromFile] reads back:
    for a Dataset whose keys are strings that are no array indices and
    whose values are representable in JSON, the Map read from the file
    after a write that succeeded has the same entries in the same
    order. *)
Theorem persist_reload_round_trip (w w1 : world) (data : addr) (m : jsmap) :
  maps w !! data = Some m ->
  forallb plain_key m = true ->
  keys_distinct m = true ->
  Forall (fun kv => json_representable kv.2) m ->
  _writeToFile data w = (Return tt, w1) ->
  exists w2, _readFromFile w1 = (Return (length (maps w1)), w2) /\
             maps w2 !! length (maps w1) = Some m /\
             file w2 = file w1.
Proof.
  intros Hm Hp Hd Hr H.
  pose proof (_writeToFile_returned _ _ _ H) as Hg.
  destruct (_writeToFile_cases data w)
    as [(e & w' & E & _)|(m' & j & Hm' & Hj & E)];
    rewrite E in H; [discriminate|].
  injection H as <-. assert (m' = m) as -> by congruence.
  eexists. split.
  - apply (_readFromFile_document _ (Doc j) (JSON_value j) m); try done.
    by apply codec_round_trip.
  - simpl. unfold Map_of. rewrite (Map_of_fold m []) by done. simpl.
    split; [|done]. rewrite lookup_app_r by done. by rewrite Nat.sub_diag.
Qed.

Lemma persist_reload_round_trip_witness :
  let m := [(JStr "b", JObj [("foo", JStr "bar")]); (JStr "a", JNum 0)] in
  let w := run [BatchWrite [Operation (JStr "b") (JObj [("foo", JStr "bar")])
                                      (JStr "create");
                            Operation (JStr "a") (JNum 0) (JStr "create")]]
               (fresh WithQueue (Options None (Some 50))) in
  let w1 := (_writeToFile 1%nat w).2 in
  exists w2, _readFromFile w1 = (Return 2%nat, w2) /\
             maps w2 !! 2%nat = Some m.
Proof.
  intros m w w1.
  assert (Hr : Forall (fun kv : jsval * jsval => json_representable kv.2) m).
  { repeat constructor.
    - by exists (json_object [("foo", json_string "bar")]).
    - by exists (json_number 0). }
  destruct (persist_reload_round_trip w w1 1%nat m
              eq_refl eq_refl eq_refl Hr eq_refl) as (w2 & H1 & H2 & _).
  exists w2. split; [exact H1 | exact H2].
Defined.

(** ** Reading everything, and reading several keys *)

Lemma slice_all {A} (l : list A) (b : Z) :
  Z.of_nat (length l) <= b -> slice l 0 b = l.
Proof.
  intros H. unfold slice, relative_index. simpl.
  pose proof (Nat2Z.is_nonneg (length l)) as Hl.
  destruct (Z.ltb_spec b 0); [exfalso; lia|].
  rewrite (Z.min_l 0), (Z.min_r b) by lia. simpl.
  rewrite Z.sub_0_r, Z.max_l, Nat2Z.id by lia.
  apply firstn_all.
Qed.

(** X21.  In the queue build [readAll] returns the object built from the
    whole Dataset, and it is what [readPage] returns for page 1 with a
    page size that is not below the size of the Dataset. *)
Theorem readAll_is_one_page (w w1 : world) (data : addr) (m : jsmap)
    (size : Z) :
  variant w = WithQueue ->
  current_data w = (Return data, w1) ->
  maps w1 !! data = Some m ->
  keys_distinct m = true ->
  Z.of_nat (length m) <= size ->
  readAll w = (Return (Object_fromEntries m), w1) /\
  readPage (Some 1) (Some size) w = readAll w.
Proof.
  intros Hv Hd Hm Hk Hs.
  assert (E : readAll w = (Return (Object_fromEntries m), w1)).
  { unfold readAll, bind at 1, get. rewrite Hv.
    unfold bind at 1. rewrite Hd. unfold bind, deref. by rewrite Hm. }
  split; [done|]. rewrite E.
  unfold readPage. simpl default.
  unfold bind at 1. rewrite Hd. unfold bind at 1, deref at 1. rewrite Hm.
  unfold ret. do 2 f_equal. f_equal.
  replace ((1 - 1) * size) with 0 by lia. replace (1 * size) with size by lia.
  unfold map_keys. rewrite slice_map, slice_all by done.
  apply (page_fold m m []); [|done].
  intros k v H. by apply map_get_member.
Qed.

Lemma readAll_is_one_page_witness :
  let w := run [Create (JStr "b") (JNum 2) false;
                Create (JStr "a") (JNum 1) false]
               (fresh WithQueue default_options) in
  (readAll w).1 = Return (JObj [("b", JNum 2); ("a", JNum 1)]) /\
  readPage (Some 1) (Some 2) w = readAll w.
Proof.
  intros w.
  destruct (readAll_is_one_page w w 1%nat
              [(JStr "b", JNum 2); (JStr "a", JNum 1)] 2
              eq_refl eq_refl eq_refl eq_refl ltac:(simpl; lia))
    as (H1 & H2).
  split; [reflexivity | exact H2].
Defined.

Lemma own_property_replace (n n' : string) (v : jsval) (ps : props) :
  own_property n (props_replace n' v ps) =
    if String.eqb n n' && props_has n' ps then Some v else own_property n ps.
Proof.
  induction ps as [|[k x] ps IH]; simpl; [by rewrite andb_false_r|].
  destruct (String.eqb_spec n' k) as [->|Hk]; simpl.
  - destruct (String.eqb_spec n k) as [->|Hn]; simpl; [done|].
    by destruct (String.eqb_spec n k).
  - rewrite IH. destruct (String.eqb_spec n n') as [->|Hn]; simpl; [|done].
    by destruct (String.eqb_spec n' k).
Qed.

Lemma own_property_absent (n : string) (ps : props) :
  props_has n ps = false -> own_property n ps = None.
Proof.
  induction ps as [|[k x] ps IH]; simpl; [done|].
  intros [H1 H2]%orb_false_iff. rewrite H1. by apply IH.
Qed.

Lemma own_property_insert_index (n n' : string) (i : N) (v : jsval)
    (ps : props) :
  props_has n' ps = false ->
  own_property n (props_insert_index i n' v ps) =
    if String.eqb n n' then Some v else own_property n ps.
Proof.
  induction ps as [|[k x] ps IH]; simpl; [done|].
  intros [H1 H2]%orb_false_iff.
  destruct (array_index k) as [i'|]; [destruct (i <? i')%N|]; simpl;
    try done.
  rewrite IH by done.
  destruct (String.eqb_spec n n') as [->|Hn]; [|done].
  by rewrite H1.
Qed.

Lemma own_property_app (n n' : string) (v : jsval) (ps : props) :
  props_has n' ps = false ->
  own_property n (ps ++ [(n', v)]) =
    if String.eqb n n' then Some v else own_property n ps.
Proof.
  induction ps as [|[k x] ps IH]; simpl; [done|].
  intros [H1 H2]%orb_false_iff. rewrite IH by done.
  destruct (String.eqb_spec n n') as [->|Hn]; [|done].
  by rewrite H1.
Qed.

(** Reading a property after CreateDataProperty. *)
Lemma own_property_define (n n' : string) (v : jsval) (ps : props) :
  own_property n (define_property n' v ps) =
    if String.eqb n n' then Some v else own_property n ps.
Proof.
  unfold define_property. destruct (props_has n' ps) eqn:H.
  - rewrite own_property_replace, H. by rewrite andb_true_r.
  - destruct (array_index n').
    + by apply own_property_insert_index.
    + by apply own_property_app.
Qed.

Lemma assigned_lookup (m : jsmap) (keys : list jsval) (key : jsval) :
  key ∈ keys ->
  exists key', key' ∈ keys /\ ToString key' = ToString key /\
    own_property (ToString key)
      (fold_left
         (fun ps k =>
            define_property (ToString k) (js_or (map_get k m) JNull) ps)
         keys [])
    = Some (js_or (map_get key' m) JNull).
Proof.
  induction keys as [|k ks IH] using rev_ind; [by intros ?%elem_of_nil|].
  intros Hin. rewrite fold_left_app. simpl. rewrite own_property_define.
  destruct (String.eqb_spec (ToString key) (ToString k)) as [E|E].
  - exists k. split; [|done]. apply elem_of_app. right. by left.
  - apply elem_of_app in Hin as [Hin|Hin].
    + destruct (IH Hin) as (key' & H1 & H2 & H3).
      exists key'. split; [|done]. apply elem_of_app. by left.
    + apply list_elem_of_singleton in Hin. by subst.
Qed.

Lemma batchRead_run (keys : list jsval) (w : world) :
  batchRead keys w =
    match current_data w with
    | (Return data, w1) =>
        match maps w1 !! data with
        | Some m => (Return (JObj <$> assigned m keys), w1)
        | None => (Throw TypeError, w1)
        end
    | (Throw e, w1) => (Throw e, w1)
    end.
Proof.
  unfold batchRead, bind, deref, ret.
  destruct (current_data w) as [[data|e] w1]; [|done].
  by destruct (maps w1 !! data).
Qed.

Lemma read_run (key : jsval) (w : world) :
  is_string key = true ->
  read key w =
    match current_data w with
    | (Return data, w1) =>
        match maps w1 !! data with
        | Some m => (Return (js_or (map_get key m) JNull), w1)
        | None => (Throw TypeError, w1)
        end
    | (Throw e, w1) => (Throw e, w1)
    end.
Proof.
  intros Hk. unfold read. rewrite Hk. simpl. unfold bind, deref, ret.
  destruct (current_data w) as [[data|e] w1]; [|done].
  by destruct (maps w1 !! data).
Qed.

(** X22.  For keys that are strings, [batchRead] answers for each key what
    [read] answers for it: the property of the result under the key is
    the value [read] returns, and when one of the two fails the other
    fails with the same error.  Both leave the same state behind. *)
Theorem batchRead_agrees_with_read (w : world) (keys : list jsval)
    (key : jsval) :
  Forall (fun k => is_string k = true) keys ->
  existsb (fun k => String.eqb (ToString k) "__proto__") keys = false ->
  key ∈ keys ->
  match batchRead keys w, read key w with
  | (Return (Some (JObj ps)), w1), (Return v, w2) =>
      own_property (ToString key) ps = Some v /\ w1 = w2
  | (Throw e, w1), (Throw e', w2) => e = e' /\ w1 = w2
  | _, _ => False
  end.
Proof.
  intros Hs Hex Hin.
  assert (Hk : is_string key = true).
  { by apply (proj1 (Forall_forall _ _) Hs). }
  rewrite batchRead_run, (read_run key w Hk).
  destruct (current_data w) as [[data|e] w1]; [|done].
  destruct (maps w1 !! data) as [m|]; [|done].
  unfold assigned. rewrite Hex. simpl. split; [|done].
  destruct (assigned_lookup m keys key Hin) as (key' & H1 & H2 & ->).
  assert (Hk' : is_string key' = true).
  { by apply (proj1 (Forall_forall _ _) Hs). }
  destruct key; try discriminate. destruct key'; try discriminate.
  simpl in H2. by subst.
Qed.

Lemma batchRead_agrees_with_read_witness :
  let w := run [Create (JStr "a") (JNum 1) false;
                Create (JStr "b") (JNum 0) false]
               (fresh WithLockfile (Options None (Some 50))) in
  match batchRead [JStr "a"; JStr "zz"; JStr "b"] w, read (JStr "b") w with
  | (Return (Some (JObj ps)), w1), (Return v, w2) =>
      own_property (ToString (JStr "b")) ps = Some v /\ w1 = w2
  | (Throw e, w1), (Throw e', w2) => e = e' /\ w1 = w2
  | _, _ => False
  end.
Proof.
  intros w.
  apply (batchRead_agrees_with_read w [JStr "a"; JStr "zz"; JStr "b"]
           (JStr "b")).
  - by repeat constructor.
  - reflexivity.
  - by repeat constructor.
Defined.


